(** * gemmlowp: the SSE4 output pipeline (internal/output_sse.h)

    A shallow embedding of the output stages that [output_sse.h] specialises
    for SSE4 registers, and the properties of the evaluators and of the store
    adapter of the final fragment.

    Conventions of the model.
    - A [__m128i] register is the 128-bit number it holds, a [Z]; its lanes
      are read with division and remainder, lane 0 in the low bits.
    - [std::int32_t] values and [int] coordinates are [Z]; the arithmetic of
      the registers wraps around 32 bits ([Lanes.signed 32]). The coordinate
      arithmetic [row + 4 * i] is not wrapped: signed overflow of [int] is
      undefined in C++.
    - An evaluator returns [option]: [None] stands for undefined behaviour of
      the C++ code (a read outside a vector, a shift count outside the width
      of [int]). *)

From stdpp Require Import base option list list_numbers gmap.
From Stdlib Require Import ZArith Lia.

Local Open Scope Z_scope.

(** ** Lanes of a register *)

Module Lanes.

(** The [n] unsigned lanes of width [w] of [v], lowest first. *)
Fixpoint split (w : Z) (n : nat) (v : Z) : list Z :=
  match n with
  | O => []
  | S n' => v mod 2 ^ w :: split w n' (v / 2 ^ w)
  end.

(** The number whose lanes of width [w] are the elements of [l], each taken
    modulo [2 ^ w]. *)
Fixpoint combine (w : Z) (l : list Z) : Z :=
  match l with
  | [] => 0
  | x :: l' => x mod 2 ^ w + 2 ^ w * combine w l'
  end.

(** Two's complement reading of a lane of width [w]. *)
Definition signed (w : Z) (u : Z) : Z :=
  (u + 2 ^ (w - 1)) mod 2 ^ w - 2 ^ (w - 1).

End Lanes.

Abbreviation __m128i := Z (only parsing).

(** The four signed 32-bit lanes, the eight signed 16-bit lanes and the
    sixteen unsigned bytes of a register. *)
Definition epi32 (v : __m128i) : list Z :=
  Lanes.signed 32 <$> Lanes.split 32 4 v.

Definition epi16 (v : __m128i) : list Z :=
  Lanes.signed 16 <$> Lanes.split 16 8 v.

Definition epu8 (v : __m128i) : list Z :=
  Lanes.split 8 16 v.

(** ** The intrinsics of <smmintrin.h> used by the file *)

Definition _mm_set1_epi32 (x : Z) : __m128i :=
  Lanes.combine 32 [x; x; x; x].

Definition _mm_add_epi32 (a b : __m128i) : __m128i :=
  Lanes.combine 32 (zip_with Z.add (epi32 a) (epi32 b)).

Definition _mm_mullo_epi32 (a b : __m128i) : __m128i :=
  Lanes.combine 32 (zip_with Z.mul (epi32 a) (epi32 b)).

(** PSRAD: a count outside 0..31 fills the lane with its sign bit. *)
Definition srai_lane (count : Z) (x : Z) : Z :=
  if (0 <=? count) && (count <=? 31) then Z.shiftr x count
  else if x <? 0 then -1 else 0.

Definition _mm_srai_epi32 (a : __m128i) (count : Z) : __m128i :=
  Lanes.combine 32 (srai_lane count <$> epi32 a).

Definition _mm_max_epi32 (a b : __m128i) : __m128i :=
  Lanes.combine 32 (zip_with Z.max (epi32 a) (epi32 b)).

Definition _mm_min_epi32 (a b : __m128i) : __m128i :=
  Lanes.combine 32 (zip_with Z.min (epi32 a) (epi32 b)).

(** Unsigned saturation of a signed value to [w] bits. *)
Definition saturate_unsigned (w : Z) (x : Z) : Z :=
  Z.max 0 (Z.min x (2 ^ w - 1)).

(** PACKUSDW: the signed 32-bit lanes of [a], then those of [b], saturated
    to unsigned 16 bits. *)
Definition _mm_packus_epi32 (a b : __m128i) : __m128i :=
  Lanes.combine 16 (saturate_unsigned 16 <$> (epi32 a ++ epi32 b)).

(** PACKUSWB: the signed 16-bit lanes of [a], then those of [b], saturated
    to unsigned 8 bits. *)
Definition _mm_packus_epi16 (a b : __m128i) : __m128i :=
  Lanes.combine 8 (saturate_unsigned 8 <$> (epi16 a ++ epi16 b)).

(** The low 32 bits of the register, as an [int]. *)
Definition _mm_cvtsi128_si32 (a : __m128i) : Z :=
  Lanes.signed 32 (a mod 2 ^ 32).

(** ** The helpers of fixedpoint.h *)

(** fixedpoint.h is not under src/. Its [Dup], [Add], [Mul] and [ShiftRight]
    on a register are taken from the words of the specification ("load,
    store, add, multiply", "arithmetic-shift-right by shift") as the SSE4
    instructions that do so on 32-bit lanes. Where the source passes a
    [std::int32_t] as the second operand of [Add] or [Mul], the scalar is the
    same for the four lanes: the model writes the broadcast out. *)

(** Modelled from the spec: [Dup] of fixedpoint.h, the broadcast of a scalar
    to the four lanes. *)
Definition Dup (x : Z) : __m128i := _mm_set1_epi32 x.

(** Modelled from the spec: [Add] of fixedpoint.h, the lane-wise sum. *)
Definition Add (a b : __m128i) : __m128i := _mm_add_epi32 a b.

(** Modelled from the spec: [Mul] of fixedpoint.h, the lane-wise product. *)
Definition Mul (a b : __m128i) : __m128i := _mm_mullo_epi32 a b.

(** Modelled from the spec: [ShiftRight] of fixedpoint.h (the source also
    spells it [ShifRight]), the lane-wise arithmetic shift right. *)
Definition ShiftRight (a : __m128i) (offset : Z) : __m128i :=
  _mm_srai_epi32 a offset.

(** [a << n] on [int]: defined for a count in 0..31, with the result wrapped
    to 32 bits; undefined otherwise. *)
Definition shl_int (a n : Z) : option Z :=
  if (0 <=? n) && (n <? 32) then Some (Lanes.signed 32 (a * 2 ^ n)) else None.

(** [(result_shift < 1) ? 0 : (1 << (result_shift - 1))] *)
Definition kRoundingTerm (result_shift : Z) : option Z :=
  if result_shift <? 1 then Some 0 else shl_int 1 (result_shift - 1).

(** [for (int i = 0; i < n; i++) body] over a state [A]. *)
Definition for_int {A : Type} (n : Z) (body : Z → A → A) (a : A) : A :=
  foldl (fun acc i => body i acc) a (seqZ 0 n).

(** ** Fragments *)

Abbreviation SSE4FragmentInt32x4x1 := Z (only parsing).
Abbreviation SSE4FragmentInt32x16x1 := (list Z) (only parsing).
(** [Fragment<uint32_t, 4, 1>]: four bytes in a 32-bit unsigned number. *)
Abbreviation SSE4FragmentUint8x4x1 := Z (only parsing).
(** The typedef of the source names [uint64_t] as the storage of the sixteen
    bytes; the evaluator returns, and [StoreFinalOutput] stores, a whole
    [__m128i]. The model keeps the register. *)
Abbreviation SSE4FragmentUint8x16x1 := Z (only parsing).

(** ** Vectors of per-channel parameters *)

Inductive VectorShape := Row | Col.

(** [VectorMap<const std::int32_t, tShape>]: the elements the map covers. *)
Record VectorMap (tShape : VectorShape) := { elements : list Z }.
Arguments elements {tShape} _.

(** [v(index)]: the element at [index]; outside the vector the read is
    undefined. *)
Definition VectorMap_at {tShape} (v : VectorMap tShape) (index : Z) : option Z :=
  if 0 <=? index then elements v !! Z.to_nat index else None.

(** [_mm_lddqu_si128(v.data(index))]: the 128 bits at the address of element
    [index], that is the four elements from [index] on. *)
Definition _mm_lddqu_si128 {tShape} (v : VectorMap tShape) (index : Z)
  : option __m128i :=
  x0 ← VectorMap_at v index;
  x1 ← VectorMap_at v (index + 1);
  x2 ← VectorMap_at v (index + 2);
  x3 ← VectorMap_at v (index + 3);
  Some (Lanes.combine 32 [x0; x1; x2; x3]).

(** ** The evaluator interface and the generic 16-wide evaluator *)

(** [OutputStageEvalImpl<OutputStageType, SSE4FragmentInt32x4x1>] with an
    [__m128i] result. *)
Class OutputStageEvalImpl (OutputStageType : Type) := {
  Eval : OutputStageType → __m128i → Z → Z → option __m128i
}.

(** [OutputStageEvalImpl<OutputStageType, SSE4FragmentInt32x16x1>::Eval].
    [output] starts uninitialised; the model starts it with zeros, all four
    of which the loop overwrites. *)
Definition Eval_Int32x16x1 {OutputStageType : Type}
    `{!OutputStageEvalImpl OutputStageType}
    (impl_int32x4 : OutputStageType) (input : list Z) (row col : Z)
  : option (list Z) :=
  for_int 4
    (fun i acc =>
       output ← acc;
       r ← Eval impl_int32x4 (input !!! Z.to_nat i) (row + 4 * i) col;
       Some (<[Z.to_nat i := r]> output))
    (Some (replicate 4 0)).

(** The element-by-element reference the spec compares with: the scalar
    function [f] applied to the elements of an N x 1 column-major fragment,
    whose rows advance by one from [row] at the fixed [col]. *)
Fixpoint scalar_reference (f : Z → Z → Z → option Z) (row col : Z)
    (xs : list Z) : option (list Z) :=
  match xs with
  | [] => Some []
  | x :: xs' =>
      y ← f row col x;
      ys ← scalar_reference f (row + 1) col xs';
      Some (y :: ys)
  end.

(** ** OutputStageQuantizeDownInt32ToUint8Scale *)

Module QuantizeDownInt32ToUint8Scale.

(** The stage structs are declared in output_stages.h, which is not under
    src/; each record below has the fields its evaluator reads. *)
Record OutputStage := {
  result_offset : Z;
  result_mult_int : Z;
  result_shift : Z
}.

Definition Eval4 (output_stage : OutputStage) (input : __m128i)
    (row col : Z) : option __m128i :=
  let result_shift := result_shift output_stage in
  let result_mult_int := result_mult_int output_stage in
  let result_offset := result_offset output_stage in
  kRoundingTerm ← kRoundingTerm result_shift;
  let a := Add (Mul (Add input (Dup result_offset)) (Dup result_mult_int))
               (Dup kRoundingTerm) in
  Some (ShiftRight a result_shift).

#[global] Instance impl : OutputStageEvalImpl OutputStage :=
  {| Eval := Eval4 |}.

End QuantizeDownInt32ToUint8Scale.

(** ** OutputStageQuantizeDownInt32ToUint8ScalePC *)

Module QuantizeDownInt32ToUint8ScalePC.

Record OutputStage (tShape : VectorShape) := {
  result_offset : VectorMap tShape;
  result_mult_int : VectorMap tShape;
  result_shift : Z
}.
Arguments result_offset {tShape} _.
Arguments result_mult_int {tShape} _.
Arguments result_shift {tShape} _.

(** Both specialisations declare [const std::int32_t result_mult_int] and
    [const std::int32_t result_offset], initialise them with the register
    that [_mm_lddqu_si128] loads through the vector's element at the index
    (the model loads at the address of that element, as the bias addition
    does with [data(row)]), and use them as [Dup(result_offset)] and as the
    second operand of [Mul]. C++ has no conversion from the register to the
    integer, so the text admits two readings of the two locals:
    - [AsDeclared]: the local is the [std::int32_t] it is declared as, the
      low lane of the loaded register, broadcast where it is used;
    - [AsLoaded]: the local is the loaded register, used lane for lane. *)
Inductive Reading := AsDeclared | AsLoaded.

(** The register that a local stands for where it is used. *)
Definition local (rd : Reading) (loaded : __m128i) : __m128i :=
  match rd with
  | AsDeclared => Dup (_mm_cvtsi128_si32 loaded)
  | AsLoaded => loaded
  end.

(** The specialisation for [VectorShape::Col]: the vectors are read at
    [row]. *)
Definition EvalCol (rd : Reading) (output_stage : OutputStage Col)
    (input : __m128i) (row col : Z) : option __m128i :=
  let result_shift := result_shift output_stage in
  result_mult_int ← _mm_lddqu_si128 (result_mult_int output_stage) row;
  result_offset ← _mm_lddqu_si128 (result_offset output_stage) row;
  kRoundingTerm ← kRoundingTerm result_shift;
  let a := Add (Mul (Add input (local rd result_offset))
                    (local rd result_mult_int))
               (Dup kRoundingTerm) in
  Some (ShiftRight a result_shift).

(** The specialisation for [VectorShape::Row]: the vectors are read at
    [col]. *)
Definition EvalRow (rd : Reading) (output_stage : OutputStage Row)
    (input : __m128i) (row col : Z) : option __m128i :=
  let result_shift := result_shift output_stage in
  result_mult_int ← _mm_lddqu_si128 (result_mult_int output_stage) col;
  result_offset ← _mm_lddqu_si128 (result_offset output_stage) col;
  kRoundingTerm ← kRoundingTerm result_shift;
  let a := Add (Mul (Add input (local rd result_offset))
                    (local rd result_mult_int))
               (Dup kRoundingTerm) in
  Some (ShiftRight a result_shift).

End QuantizeDownInt32ToUint8ScalePC.

(** ** OutputStageQuantizeDownInt32ToUint8ScaleByFixedPoint *)

Module QuantizeDownInt32ToUint8ScaleByFixedPoint.

Record OutputStage := {
  result_fixedpoint_multiplier : Z;
  result_shift : Z;
  result_offset_after_shift : Z
}.

Section Eval.

(** The scalar [SaturatingRoundingDoublingHighMul] of fixedpoint.h, which
    is not under src/; the register version applies it to each lane. *)
Variable SaturatingRoundingDoublingHighMul_int32 : Z → Z → Z.

Definition SaturatingRoundingDoublingHighMul (a : __m128i) (b : Z)
  : __m128i :=
  Lanes.combine 32
    ((fun x => SaturatingRoundingDoublingHighMul_int32 x b) <$> epi32 a).

Definition Eval4 (output_stage : OutputStage) (input : __m128i)
    (row col : Z) : option __m128i :=
  let mulhigh_val :=
    SaturatingRoundingDoublingHighMul input
      (result_fixedpoint_multiplier output_stage) in
  let result_shift := result_shift output_stage in
  kRoundingTerm ← kRoundingTerm result_shift;
  let shifted_val :=
    ShiftRight (Add mulhigh_val (Dup kRoundingTerm)) result_shift in
  Some (Add shifted_val (Dup (result_offset_after_shift output_stage))).

End Eval.

End QuantizeDownInt32ToUint8ScaleByFixedPoint.

(** ** OutputStageSaturatingCastToUint8 *)

Module SaturatingCastToUint8.

(** The 4-wide evaluator; the [int] that [_mm_cvtsi128_si32] returns
    becomes the [uint32_t] of the fragment. *)
Definition Eval4 (input : __m128i) (row col : Z) : Z :=
  let zero := Dup 0 in
  let res_16 := _mm_packus_epi32 input zero in
  let res_8 := _mm_packus_epi16 res_16 zero in
  _mm_cvtsi128_si32 res_8 mod 2 ^ 32.

(** The four bytes of a [SSE4FragmentUint8x4x1], lowest first. *)
Definition bytes4 (value : Z) : list Z := Lanes.split 8 4 value.

(** The 16-wide evaluator. *)
Definition Eval16 (input : list Z) (row col : Z) : __m128i :=
  let q16 :=
    for_int 2
      (fun i q16 =>
         <[Z.to_nat i :=
             _mm_packus_epi32 (input !!! Z.to_nat (2 * i))
                              (input !!! Z.to_nat (2 * i + 1))]> q16)
      (replicate 2 0) in
  _mm_packus_epi16 (q16 !!! 0%nat) (q16 !!! 1%nat).

End SaturatingCastToUint8.

(** ** OutputStageBiasAddition *)

Module BiasAddition.

Record OutputStage (tShape : VectorShape) := {
  bias_vector : VectorMap tShape
}.
Arguments bias_vector {tShape} _.

Definition Eval4 {tShape : VectorShape} (output_stage : OutputStage tShape)
    (input : __m128i) (row col : Z) : option __m128i :=
  bias ← match tShape with
         | Row => Dup <$> VectorMap_at (bias_vector output_stage) col
         | Col => _mm_lddqu_si128 (bias_vector output_stage) row
         end;
  Some (Add input bias).

#[global] Instance impl {tShape} : OutputStageEvalImpl (OutputStage tShape) :=
  {| Eval := Eval4 |}.

End BiasAddition.

(** ** OutputStageClamp *)

Module Clamp.

Record OutputStage := { min : Z; max : Z }.

Definition Eval4 (output_stage : OutputStage) (input : __m128i)
    (row col : Z) : option __m128i :=
  let min := Dup (min output_stage) in
  let max := Dup (max output_stage) in
  Some (_mm_min_epi32 (_mm_max_epi32 input min) max).

#[global] Instance impl : OutputStageEvalImpl OutputStage :=
  {| Eval := Eval4 |}.

End Clamp.

(** ** StoreFinalOutput *)

Module Store.

(** The destination: [data(row, col)] is the byte address of the element
    at [(row, col)]; the destination type is a template parameter of the
    source. *)
Record DstType := { data : Z → Z → Z }.

(** Memory: the bytes written so far, by address. *)
Abbreviation memory := (gmap Z Z) (only parsing).

(** The sixteen bytes of [v] at the addresses [p], ..., [p + 15]. *)
Definition _mm_storeu_si128 (p : Z) (v : __m128i) (mem : gmap Z Z)
  : gmap Z Z :=
  list_to_map (zip (seqZ p 16) (epu8 v)) ∪ mem.

(** The int32 at byte address [p], when its four bytes are there. *)
Definition load_int32 (mem : gmap Z Z) (p : Z) : option Z :=
  b0 ← mem !! p; b1 ← mem !! (p + 1); b2 ← mem !! (p + 2);
  b3 ← mem !! (p + 3);
  Some (Lanes.signed 32 (Lanes.combine 8 [b0; b1; b2; b3])).

(** [StoreFinalOutput(SSE4FragmentInt32x4x1, ...)] *)
Definition StoreFinalOutput_Int32x4x1 (value : __m128i) (dst : DstType)
    (row col : Z) (mem : gmap Z Z) : gmap Z Z :=
  _mm_storeu_si128 (data dst row col) value mem.

Section Int32x16x1.

(** The source passes the fragment [value] itself as the register that
    [_mm_storeu_si128] stores; [as_m128i] is the register this stands
    for, the same in every iteration. *)
Variable as_m128i : list Z → __m128i.

(** [StoreFinalOutput(SSE4FragmentInt32x16x1, ...)] *)
Definition StoreFinalOutput_Int32x16x1 (value : list Z) (dst : DstType)
    (row col : Z) (mem : gmap Z Z) : gmap Z Z :=
  for_int 4
    (fun i mem => _mm_storeu_si128 (data dst row col) (as_m128i value) mem)
    mem.

End Int32x16x1.

(** [StoreFinalOutput(SSE4FragmentUint8x16x1, ...)] *)
Definition StoreFinalOutput_Uint8x16x1 (value : __m128i) (dst : DstType)
    (row col : Z) (mem : gmap Z Z) : gmap Z Z :=
  _mm_storeu_si128 (data dst row col) value mem.

(** The register whose low 32 bits are [a] and whose other bits are zero. *)
Definition _mm_cvtsi32_si128 (a : Z) : __m128i := a mod 2 ^ 32.

(** MOVSS to memory: the low 32 bits of [a], four bytes, at [p], ...,
    [p + 3]. *)
Definition _mm_store_ss (p : Z) (a : __m128i) (mem : gmap Z Z) : gmap Z Z :=
  list_to_map (zip (seqZ p 4) (Lanes.split 8 4 a)) ∪ mem.

Section Uint8x4x1.

(** The source computes [input_value] and then passes the fragment [value]
    itself as the register that [_mm_store_ss] stores; [as_m128] is the
    register this stands for. *)
Variable as_m128 : Z → __m128i.

(** [StoreFinalOutput(SSE4FragmentUint8x4x1, ...)] *)
Definition StoreFinalOutput_Uint8x4x1 (value : Z) (dst : DstType)
    (row col : Z) (mem : gmap Z Z) : gmap Z Z :=
  let input_value := _mm_cvtsi32_si128 value in
  _mm_store_ss (data dst row col) (as_m128 value) mem.

End Uint8x4x1.

(** What the spec asks of the 16-wide store: sub-group [i] at the address
    of [(row + 4 * i, col)]. *)
Definition store_distinct (value : list Z) (dst : DstType) (row col : Z)
    (mem : gmap Z Z) : gmap Z Z :=
  for_int 4
    (fun i mem =>
       _mm_storeu_si128 (data dst (row + 4 * i) col)
                        (value !!! Z.to_nat i) mem)
    mem.

End Store.

(** ** Statements of the specification *)

Definition in_int32 (x : Z) : Prop := - 2 ^ 31 <= x < 2 ^ 31.

(** The uniform rescale of one element as the specification words it, in
    the 32-bit arithmetic of the registers: the product alone when
    [shift <= 0], the product plus [2 ^ (shift - 1)] shifted right by [shift]
    otherwise. *)
Definition UniformRescale_spec (offset multiplier shift : Z) (x : Z) : Z :=
  let product := Lanes.signed 32 (Lanes.signed 32 (x + offset) * multiplier) in
  if shift <=? 0 then product
  else Z.shiftr (Lanes.signed 32 (product + 2 ^ (shift - 1))) shift.

(** The rounding term as the specification words it. *)
Definition roundingTerm_spec (shift : Z) : Z :=
  if shift <? 1 then 0 else 2 ^ (shift - 1).

(** The saturating cast of one element as the specification words it. *)
Definition SaturatingNarrow_spec (x : Z) : Z :=
  if x <=? 0 then 0 else if 255 <=? x then 255 else x.

(** The saturating cast of one element as the two packs compute it. *)
Definition packed_byte (x : Z) : Z :=
  saturate_unsigned 8 (Lanes.signed 16 (saturate_unsigned 16 x)).

(** The per-channel rescale as the specification words it: the row variant
    takes the offset and the multiplier of element [i] at index [row + i],
    the column variant takes those at index [col] for every element. *)
Definition PerChannelRescale_row_spec (offset multiplier : list Z)
    (shift row : Z) (xs : list Z) : list Z :=
  imap (fun i x =>
          UniformRescale_spec (offset !!! Z.to_nat (row + Z.of_nat i))
                              (multiplier !!! Z.to_nat (row + Z.of_nat i))
                              shift x) xs.

Definition PerChannelRescale_col_spec (offset multiplier : list Z)
    (shift col : Z) (xs : list Z) : list Z :=
  UniformRescale_spec (offset !!! Z.to_nat col) (multiplier !!! Z.to_nat col)
                      shift <$> xs.

(** Modelled from the spec: the scalar [SaturatingRoundingDoublingHighMul] of
    fixedpoint.h, which is not under src/: the product of two Q0.31 numbers,
    doubled, rounded to nearest, its high 32 bits kept, saturated when both
    operands are -1. Used to instantiate the evaluator on examples. *)
Definition SaturatingRoundingDoublingHighMul_reference (a b : Z) : Z :=
  if (a =? b) && (a =? - 2 ^ 31) then 2 ^ 31 - 1
  else
    let ab := a * b in
    let nudge := if 0 <=? ab then 2 ^ 30 else 1 - 2 ^ 30 in
    Z.quot (ab + nudge) (2 ^ 31).

(** ** Lemmas on lanes *)

Lemma pow2_pos (w : Z) : 0 <= w -> 0 < 2 ^ w.
Proof. intros; apply Z.pow_pos_nonneg; lia. Qed.

Lemma split_combine (w : Z) (l : list Z) :
  0 <= w ->
  Lanes.split w (length l) (Lanes.combine w l) = (fun x => x mod 2 ^ w) <$> l.
Proof.
  intros Hw. pose proof (pow2_pos w Hw) as Hp.
  induction l as [|x l IH]; [reflexivity|].
  cbn [length Lanes.split Lanes.combine fmap list_fmap].
  f_equal.
  - rewrite (Z.mul_comm (2 ^ w)), Z.mod_add by lia.
    apply Z.mod_mod; lia.
  - rewrite <- IH. f_equal.
    rewrite (Z.mul_comm (2 ^ w)), Z.div_add by lia.
    rewrite Z.div_small; [lia|]. apply Z.mod_pos_bound; lia.
Qed.

Lemma signed_mod (w x : Z) :
  0 < w -> Lanes.signed w (x mod 2 ^ w) = Lanes.signed w x.
Proof.
  intros Hw. unfold Lanes.signed.
  pose proof (pow2_pos w ltac:(lia)).
  rewrite Z.add_mod_idemp_l by lia. reflexivity.
Qed.

Lemma signed_small (w x : Z) :
  0 < w -> - 2 ^ (w - 1) <= x < 2 ^ (w - 1) -> Lanes.signed w x = x.
Proof.
  intros Hw Hx. unfold Lanes.signed.
  assert (2 ^ w = 2 * 2 ^ (w - 1)) as E.
  { rewrite <- Z.pow_succ_r by lia. f_equal; lia. }
  rewrite Z.mod_small by lia. lia.
Qed.

Lemma signed_range (w x : Z) :
  0 < w -> - 2 ^ (w - 1) <= Lanes.signed w x < 2 ^ (w - 1).
Proof.
  intros Hw. unfold Lanes.signed.
  assert (2 ^ w = 2 * 2 ^ (w - 1)) as E.
  { rewrite <- Z.pow_succ_r by lia. f_equal; lia. }
  pose proof (pow2_pos (w - 1) ltac:(lia)).
  pose proof (Z.mod_pos_bound (x + 2 ^ (w - 1)) (2 ^ w) ltac:(lia)). lia.
Qed.

Lemma epi32_combine (l : list Z) :
  length l = 4%nat -> epi32 (Lanes.combine 32 l) = Lanes.signed 32 <$> l.
Proof.
  intros Hl. unfold epi32. rewrite <- Hl, split_combine by lia.
  rewrite <- list_fmap_compose. apply list_fmap_ext.
  intros _ x _. apply signed_mod; lia.
Qed.

Lemma epi16_combine (l : list Z) :
  length l = 8%nat -> epi16 (Lanes.combine 16 l) = Lanes.signed 16 <$> l.
Proof.
  intros Hl. unfold epi16. rewrite <- Hl, split_combine by lia.
  rewrite <- list_fmap_compose. apply list_fmap_ext.
  intros _ x _. apply signed_mod; lia.
Qed.

Lemma epu8_combine (l : list Z) :
  length l = 16%nat ->
  epu8 (Lanes.combine 8 l) = (fun x => x mod 2 ^ 8) <$> l.
Proof. intros Hl. unfold epu8. rewrite <- Hl. apply split_combine; lia. Qed.

Lemma length_split (w : Z) (n : nat) (v : Z) : length (Lanes.split w n v) = n.
Proof. revert v; induction n; intros; cbn; auto. Qed.

Lemma length_epi32 (v : __m128i) : length (epi32 v) = 4%nat.
Proof. unfold epi32. rewrite length_fmap. apply length_split. Qed.

Lemma signed_add_l (w x y : Z) :
  0 < w -> Lanes.signed w (Lanes.signed w x + y) = Lanes.signed w (x + y).
Proof.
  intros Hw. unfold Lanes.signed.
  pose proof (pow2_pos w ltac:(lia)).
  f_equal.
  replace ((x + 2 ^ (w - 1)) mod 2 ^ w - 2 ^ (w - 1) + y + 2 ^ (w - 1))
    with ((x + 2 ^ (w - 1)) mod 2 ^ w + y) by lia.
  rewrite Z.add_mod_idemp_l by lia. f_equal; lia.
Qed.

Lemma signed_add_r (w x y : Z) :
  0 < w -> Lanes.signed w (x + Lanes.signed w y) = Lanes.signed w (x + y).
Proof.
  intros Hw. rewrite (Z.add_comm x), signed_add_l by lia. f_equal; lia.
Qed.

Lemma signed_mul_r (w x y : Z) :
  0 < w -> Lanes.signed w (x * Lanes.signed w y) = Lanes.signed w (x * y).
Proof.
  intros Hw. unfold Lanes.signed.
  pose proof (pow2_pos w ltac:(lia)).
  f_equal.
  set (h := 2 ^ (w - 1)). set (M := 2 ^ w) in *.
  rewrite <- (Z.add_mod_idemp_l (x * _)), <- (Z.add_mod_idemp_l (x * y)) by lia.
  f_equal. f_equal.
  rewrite <- (Z.mul_mod_idemp_r x ((y + h) mod M - h)) by lia.
  rewrite <- (Z.mul_mod_idemp_r x y) by lia. f_equal. f_equal.
  rewrite Zminus_mod_idemp_l. f_equal; lia.
Qed.

Lemma signed_idem (w x : Z) :
  0 < w -> Lanes.signed w (Lanes.signed w x) = Lanes.signed w x.
Proof. intros Hw. apply signed_small, signed_range; lia. Qed.

(** The lanes of a register are four 32-bit values. *)
Lemma epi32_lanes (v : Z) :
  ∃ a0 a1 a2 a3,
    epi32 v = [a0; a1; a2; a3]
    ∧ in_int32 a0 ∧ in_int32 a1 ∧ in_int32 a2 ∧ in_int32 a3.
Proof.
  unfold epi32. cbn [Lanes.split fmap list_fmap].
  do 4 eexists. split; [reflexivity|].
  repeat split; apply (signed_range 32); lia.
Qed.

Ltac lanes4 v :=
  let E := fresh "E" in
  destruct (epi32_lanes v) as (? & ? & ? & ? & E & ? & ? & ? & ?);
  rewrite ?E in *; clear E.

Lemma epi32_Dup (x : Z) :
  epi32 (Dup x) = replicate 4 (Lanes.signed 32 x).
Proof. unfold Dup, _mm_set1_epi32. rewrite epi32_combine by reflexivity. reflexivity. Qed.

Lemma epi32_zip_with (f : Z → Z → Z) (a b : Z) :
  epi32 (Lanes.combine 32 (zip_with f (epi32 a) (epi32 b)))
  = zip_with (fun x y => Lanes.signed 32 (f x y)) (epi32 a) (epi32 b).
Proof.
  lanes4 a; lanes4 b.
  rewrite epi32_combine by reflexivity. reflexivity.
Qed.

Lemma epi32_fmap (g : Z → Z) (a : Z) :
  epi32 (Lanes.combine 32 (g <$> epi32 a))
  = (fun x => Lanes.signed 32 (g x)) <$> epi32 a.
Proof.
  lanes4 a. rewrite epi32_combine by reflexivity. reflexivity.
Qed.

Lemma epi32_Add_Dup (a k : Z) :
  epi32 (Add a (Dup k)) = (fun x => Lanes.signed 32 (x + k)) <$> epi32 a.
Proof.
  unfold Add, _mm_add_epi32. rewrite epi32_zip_with, epi32_Dup.
  lanes4 a. cbn [replicate zip_with fmap list_fmap].
  rewrite !signed_add_r by lia. reflexivity.
Qed.

Lemma epi32_Mul_Dup (a k : Z) :
  epi32 (Mul a (Dup k)) = (fun x => Lanes.signed 32 (x * k)) <$> epi32 a.
Proof.
  unfold Mul, _mm_mullo_epi32. rewrite epi32_zip_with, epi32_Dup.
  lanes4 a. cbn [replicate zip_with fmap list_fmap].
  rewrite !signed_mul_r by lia. reflexivity.
Qed.

Lemma epi32_ShiftRight (a count : Z) :
  epi32 (ShiftRight a count)
  = (fun x => Lanes.signed 32 (srai_lane count x)) <$> epi32 a.
Proof. unfold ShiftRight, _mm_srai_epi32. apply epi32_fmap. Qed.

Lemma epi32_in_int32 (v x : Z) : x ∈ epi32 v → in_int32 x.
Proof.
  unfold epi32. intros [y [-> _]]%list_elem_of_fmap.
  apply (signed_range 32); lia.
Qed.

Lemma shiftr_in_int32 (x k : Z) :
  0 <= k → in_int32 x → in_int32 (Z.shiftr x k).
Proof.
  unfold in_int32. intros Hk Hx. rewrite Z.shiftr_div_pow2 by lia.
  pose proof (pow2_pos k Hk).
  split.
  - apply Z.div_le_lower_bound; [lia|]. nia.
  - apply Z.div_lt_upper_bound; [lia|]. nia.
Qed.

(** On a 32-bit value, the sign fill of a count above 31 is the shift. *)
Lemma srai_lane_shiftr (count x : Z) :
  0 <= count → in_int32 x → srai_lane count x = Z.shiftr x count.
Proof.
  unfold srai_lane, in_int32. intros Hc Hx.
  destruct (Z.leb_spec 0 count); [|lia].
  destruct (Z.leb_spec count 31); cbn [andb]; [reflexivity|].
  rewrite Z.shiftr_div_pow2 by lia.
  assert (2 ^ 31 < 2 ^ count) by (apply Z.pow_lt_mono_r; lia).
  destruct (Z.ltb_spec x 0).
  - apply Z.div_unique with (r := x + 2 ^ count); lia.
  - symmetry. apply Z.div_small; lia.
Qed.

Lemma srai_lane_in_int32 (count x : Z) :
  in_int32 x → in_int32 (srai_lane count x).
Proof.
  intros Hx. unfold srai_lane.
  destruct (Z.leb_spec 0 count); cbn [andb].
  - destruct (Z.leb_spec count 31).
    + apply shiftr_in_int32; [lia|done].
    + destruct (x <? 0); unfold in_int32; lia.
  - destruct (x <? 0); unfold in_int32; lia.
Qed.

(** ** Clamp *)

Lemma epi32_max_Dup (a m : Z) :
  epi32 (_mm_max_epi32 a (Dup m))
  = (fun x => Z.max x (Lanes.signed 32 m)) <$> epi32 a.
Proof.
  unfold _mm_max_epi32. rewrite epi32_zip_with, epi32_Dup.
  pose proof (signed_range 32 m ltac:(lia)) as Hm.
  change (32 - 1) with 31 in Hm.
  lanes4 a. cbn [replicate zip_with fmap list_fmap].
  unfold in_int32 in *.
  rewrite !(signed_small 32 (Z.max _ _)) by lia. reflexivity.
Qed.

Lemma epi32_min_Dup (a m : Z) :
  epi32 (_mm_min_epi32 a (Dup m))
  = (fun x => Z.min x (Lanes.signed 32 m)) <$> epi32 a.
Proof.
  unfold _mm_min_epi32. rewrite epi32_zip_with, epi32_Dup.
  pose proof (signed_range 32 m ltac:(lia)) as Hm.
  change (32 - 1) with 31 in Hm.
  lanes4 a. cbn [replicate zip_with fmap list_fmap].
  unfold in_int32 in *.
  rewrite !(signed_small 32 (Z.min _ _)) by lia. reflexivity.
Qed.

Lemma Clamp_lanes (s : Clamp.OutputStage) (v row col : Z) :
  epi32 <$> Clamp.Eval4 s v row col
  = Some ((fun x => Z.min (Z.max x (Lanes.signed 32 (Clamp.min s)))
                          (Lanes.signed 32 (Clamp.max s))) <$> epi32 v).
Proof.
  unfold Clamp.Eval4. cbn [fmap option_fmap option_map]. f_equal.
  rewrite epi32_min_Dup, epi32_max_Dup, <- list_fmap_compose. reflexivity.
Qed.

(** C10. For every 4-wide int32 fragment and every Clamp stage whose bounds
    are 32-bit values, with nothing assumed on their order, each element of
    the result of Eval is the lower bound applied first and then the upper:
    min (max element min) max. In particular, when min > max every element
    of the result is max, whatever the input. *)
Theorem C10_clamp_lower_then_upper
    (s : Clamp.OutputStage) (v row col : Z) :
  in_int32 (Clamp.min s) → in_int32 (Clamp.max s) →
  epi32 <$> Eval s v row col
  = Some ((fun x => Z.min (Z.max x (Clamp.min s)) (Clamp.max s)) <$> epi32 v)
  ∧ (Clamp.min s > Clamp.max s →
     epi32 <$> Eval s v row col = Some (replicate 4 (Clamp.max s))).
Proof.
  intros Hmin Hmax.
  change (Eval s v row col) with (Clamp.Eval4 s v row col).
  rewrite Clamp_lanes.
  rewrite !signed_small by (unfold in_int32 in *; lia).
  split; [reflexivity|].
  intros Hcross. f_equal. lanes4 v.
  cbn [fmap list_fmap replicate]. repeat f_equal; lia.
Qed.

Lemma C10_clamp_lower_then_upper_witness :
  let s := {| Clamp.min := 20; Clamp.max := 10 |} in
  let v := Lanes.combine 32 [-5; 15; 25; 2147483647] in
  epi32 <$> Eval s v 0 0
  = Some ((fun x => Z.min (Z.max x 20) 10) <$> epi32 v)
  ∧ epi32 <$> Eval s v 0 0 = Some [10; 10; 10; 10].
Proof.
  intros s v.
  destruct (C10_clamp_lower_then_upper s v 0 0) as [Hlanes Hcross];
    [unfold in_int32; simpl; lia ..|].
  split; [exact Hlanes|]. apply Hcross. simpl; lia.
Defined.

(** ** The rounding term *)

Lemma kRoundingTerm_lt_1 (shift : Z) : shift < 1 → kRoundingTerm shift = Some 0.
Proof.
  intros H. unfold kRoundingTerm. destruct (Z.ltb_spec shift 1); [done|lia].
Qed.

Lemma kRoundingTerm_ge_1 (shift : Z) :
  1 <= shift <= 32 →
  kRoundingTerm shift = Some (Lanes.signed 32 (2 ^ (shift - 1))).
Proof.
  intros H. unfold kRoundingTerm, shl_int.
  destruct (Z.ltb_spec shift 1); [lia|].
  destruct (Z.leb_spec 0 (shift - 1)); [|lia].
  destruct (Z.ltb_spec (shift - 1) 32); [|lia].
  cbn [andb]. by rewrite Z.mul_1_l.
Qed.

Lemma kRoundingTerm_spec (shift : Z) :
  shift <= 32 →
  kRoundingTerm shift = Some (Lanes.signed 32 (roundingTerm_spec shift)).
Proof.
  intros H. unfold roundingTerm_spec.
  destruct (Z.ltb_spec shift 1).
  - by rewrite kRoundingTerm_lt_1.
  - by rewrite kRoundingTerm_ge_1.
Qed.

Lemma signed_srai_lane (count x : Z) :
  Lanes.signed 32 (srai_lane count (Lanes.signed 32 x))
  = srai_lane count (Lanes.signed 32 x).
Proof.
  apply signed_small; [lia|].
  apply (srai_lane_in_int32 count), (signed_range 32); lia.
Qed.

(** ** OutputStageQuantizeDownInt32ToUint8Scale *)

Lemma Scale_lanes (s : QuantizeDownInt32ToUint8Scale.OutputStage)
    (v row col k : Z) :
  let offset := QuantizeDownInt32ToUint8Scale.result_offset s in
  let mult := QuantizeDownInt32ToUint8Scale.result_mult_int s in
  let shift := QuantizeDownInt32ToUint8Scale.result_shift s in
  kRoundingTerm shift = Some k →
  epi32 <$> QuantizeDownInt32ToUint8Scale.Eval4 s v row col
  = Some ((fun x =>
             srai_lane shift
               (Lanes.signed 32
                  (Lanes.signed 32 (Lanes.signed 32 (x + offset) * mult) + k)))
          <$> epi32 v).
Proof.
  intros offset mult shift Hk.
  unfold QuantizeDownInt32ToUint8Scale.Eval4. fold shift. rewrite Hk.
  cbn [mbind option_bind fmap option_fmap option_map]. f_equal.
  rewrite epi32_ShiftRight, epi32_Add_Dup, epi32_Mul_Dup, epi32_Add_Dup.
  rewrite <- !list_fmap_compose. apply list_fmap_ext. intros _ x _.
  cbn [compose]. apply signed_srai_lane.
Qed.

(** C3, as amended. For every int32 element x of a 4-wide fragment and every
    UniformRescale stage, with product = (x + offset) * multiplier in the
    wrap-around 32-bit arithmetic of the registers: when shift = 0 the
    element of the result is the product, with no rounding term; when
    shift = k with 1 <= k <= 32 it is (product + 2^(k-1)), wrapped to 32
    bits, arithmetically shifted right by k; when shift < 0 no rounding
    term is added either, and the product still goes through ShiftRight
    with the negative count, which leaves its sign only (0 or -1). *)
Theorem C3_uniform_rescale
    (s : QuantizeDownInt32ToUint8Scale.OutputStage) (v row col : Z) :
  let offset := QuantizeDownInt32ToUint8Scale.result_offset s in
  let mult := QuantizeDownInt32ToUint8Scale.result_mult_int s in
  let shift := QuantizeDownInt32ToUint8Scale.result_shift s in
  let product x := Lanes.signed 32 (Lanes.signed 32 (x + offset) * mult) in
  (shift = 0 →
   epi32 <$> Eval s v row col = Some (product <$> epi32 v))
  ∧ (1 <= shift <= 32 →
     epi32 <$> Eval s v row col
     = Some ((fun x =>
                Z.shiftr (Lanes.signed 32 (product x + 2 ^ (shift - 1))) shift)
             <$> epi32 v))
  ∧ (shift < 0 →
     epi32 <$> Eval s v row col
     = Some ((fun x => if product x <? 0 then -1 else 0) <$> epi32 v)).
Proof.
  intros offset mult shift product.
  change (Eval s v row col)
    with (QuantizeDownInt32ToUint8Scale.Eval4 s v row col).
  split; [|split]; intros Hs.
  - rewrite (Scale_lanes s v row col 0) by (apply kRoundingTerm_lt_1; lia).
    f_equal. apply list_fmap_ext. intros _ x _. fold offset mult shift.
    rewrite Z.add_0_r, signed_idem by lia. fold (product x).
    rewrite Hs. unfold srai_lane. cbn. apply Z.shiftr_0_r.
  - rewrite (Scale_lanes s v row col (Lanes.signed 32 (2 ^ (shift - 1))))
      by (apply kRoundingTerm_ge_1; lia).
    f_equal. apply list_fmap_ext. intros _ x _. fold offset mult shift.
    fold (product x). rewrite signed_add_r by lia.
    apply srai_lane_shiftr; [lia|]. apply (signed_range 32); lia.
  - rewrite (Scale_lanes s v row col 0) by (apply kRoundingTerm_lt_1; lia).
    f_equal. apply list_fmap_ext. intros _ x _. fold offset mult shift.
    rewrite Z.add_0_r, signed_idem by lia. fold (product x).
    unfold srai_lane. destruct (Z.leb_spec 0 shift); [lia|]. reflexivity.
Qed.

Lemma C3_uniform_rescale_witness :
  let v := Lanes.combine 32 [1000; -1000; 7; 2147483647] in
  epi32 <$> Eval {| QuantizeDownInt32ToUint8Scale.result_offset := 0;
                    QuantizeDownInt32ToUint8Scale.result_mult_int := 3;
                    QuantizeDownInt32ToUint8Scale.result_shift := 0 |} v 0 0
  = Some [3000; -3000; 21; 2147483645]
  ∧ epi32 <$> Eval {| QuantizeDownInt32ToUint8Scale.result_offset := 0;
                      QuantizeDownInt32ToUint8Scale.result_mult_int := 3;
                      QuantizeDownInt32ToUint8Scale.result_shift := 4 |} v 0 0
    = Some [188; -187; 1; -134217728]
  ∧ epi32 <$> Eval {| QuantizeDownInt32ToUint8Scale.result_offset := 0;
                      QuantizeDownInt32ToUint8Scale.result_mult_int := 3;
                      QuantizeDownInt32ToUint8Scale.result_shift := -1 |} v 0 0
    = Some [0; -1; 0; 0].
Proof.
  intros v. split; [|split].
  - etrans;
      [apply (proj1 (C3_uniform_rescale
                {| QuantizeDownInt32ToUint8Scale.result_offset := 0;
                   QuantizeDownInt32ToUint8Scale.result_mult_int := 3;
                   QuantizeDownInt32ToUint8Scale.result_shift := 0 |} v 0 0));
       reflexivity
      |vm_compute; reflexivity].
  - etrans;
      [apply (proj1 (proj2 (C3_uniform_rescale
                {| QuantizeDownInt32ToUint8Scale.result_offset := 0;
                   QuantizeDownInt32ToUint8Scale.result_mult_int := 3;
                   QuantizeDownInt32ToUint8Scale.result_shift := 4 |} v 0 0)));
       simpl; lia
      |vm_compute; reflexivity].
  - etrans;
      [apply (proj2 (proj2 (C3_uniform_rescale
                {| QuantizeDownInt32ToUint8Scale.result_offset := 0;
                   QuantizeDownInt32ToUint8Scale.result_mult_int := 3;
                   QuantizeDownInt32ToUint8Scale.result_shift := -1 |} v 0 0)));
       simpl; lia
      |vm_compute; reflexivity].
Defined.

(** C3, as stated, fails: with offset 0, multiplier 1 and shift -1 the
    element 1 gives 0, not (1 + 0) * 1 = 1. *)
Lemma C3_negative_shift_counterexample :
  let s := {| QuantizeDownInt32ToUint8Scale.result_offset := 0;
              QuantizeDownInt32ToUint8Scale.result_mult_int := 1;
              QuantizeDownInt32ToUint8Scale.result_shift := -1 |} in
  ¬ (epi32 <$> Eval s (Dup 1) 0 0
     = Some (UniformRescale_spec 0 1 (-1) <$> epi32 (Dup 1))).
Proof. intros s. vm_compute. congruence. Qed.

(** ** OutputStageQuantizeDownInt32ToUint8ScaleByFixedPoint *)

Lemma epi32_SaturatingRoundingDoublingHighMul (f : Z → Z → Z) (a b : Z) :
  epi32 (QuantizeDownInt32ToUint8ScaleByFixedPoint.SaturatingRoundingDoublingHighMul f a b)
  = (fun x => Lanes.signed 32 (f x b)) <$> epi32 a.
Proof.
  unfold QuantizeDownInt32ToUint8ScaleByFixedPoint.SaturatingRoundingDoublingHighMul.
  apply epi32_fmap.
Qed.

(** C6. For every int32 element x of a 4-wide fragment and every
    FixedPointRescale stage whose shift is at most 32 (beyond, the C++ shift
    that builds the rounding term is undefined), the element of the result of
    Eval is: mul = SaturatingRoundingDoublingHighMul(x, fixedPointMultiplier),
    plus the rounding term (0 when shift < 1, otherwise 2^(shift-1)), shifted
    right arithmetically by shift, plus offsetAfterShift, each sum wrapped to
    32 bits. For a shift of 0 or more, the arithmetic shift of the register
    is the shift of the integer. *)
Theorem C6_fixed_point_rescale
    (SaturatingRoundingDoublingHighMul_int32 : Z → Z → Z)
    (s : QuantizeDownInt32ToUint8ScaleByFixedPoint.OutputStage)
    (v row col : Z) :
  let multiplier :=
    QuantizeDownInt32ToUint8ScaleByFixedPoint.result_fixedpoint_multiplier s in
  let shift := QuantizeDownInt32ToUint8ScaleByFixedPoint.result_shift s in
  let offset_after_shift :=
    QuantizeDownInt32ToUint8ScaleByFixedPoint.result_offset_after_shift s in
  let rounded x :=
    Lanes.signed 32
      (SaturatingRoundingDoublingHighMul_int32 x multiplier
       + roundingTerm_spec shift) in
  shift <= 32 →
  epi32 <$> QuantizeDownInt32ToUint8ScaleByFixedPoint.Eval4
              SaturatingRoundingDoublingHighMul_int32 s v row col
  = Some ((fun x =>
             Lanes.signed 32 (srai_lane shift (rounded x) + offset_after_shift))
          <$> epi32 v)
  ∧ (0 <= shift → ∀ x, srai_lane shift (rounded x) = Z.shiftr (rounded x) shift).
Proof.
  intros multiplier shift offset_after_shift rounded Hs. split.
  - unfold QuantizeDownInt32ToUint8ScaleByFixedPoint.Eval4.
    fold shift multiplier offset_after_shift.
    rewrite kRoundingTerm_spec by done.
    cbn [mbind option_bind fmap option_fmap option_map]. f_equal.
    rewrite epi32_Add_Dup, epi32_ShiftRight, epi32_Add_Dup,
      epi32_SaturatingRoundingDoublingHighMul.
    rewrite <- !list_fmap_compose. apply list_fmap_ext. intros _ x _.
    cbn [compose]. rewrite signed_srai_lane, signed_add_r, signed_add_l by lia.
    reflexivity.
  - intros Hs0 x. apply srai_lane_shiftr; [done|].
    apply (signed_range 32); lia.
Qed.

Lemma C6_fixed_point_rescale_witness :
  let s := {| QuantizeDownInt32ToUint8ScaleByFixedPoint.result_fixedpoint_multiplier
                := 1073741824;
              QuantizeDownInt32ToUint8ScaleByFixedPoint.result_shift := 3;
              QuantizeDownInt32ToUint8ScaleByFixedPoint.result_offset_after_shift
                := 128 |} in
  epi32 <$> QuantizeDownInt32ToUint8ScaleByFixedPoint.Eval4
              SaturatingRoundingDoublingHighMul_reference s
              (Lanes.combine 32 [1000; -1000; 0; 2147483647]) 0 0
  = Some [191; 66; 128; 134217856].
Proof.
  intros s. etrans.
  - apply (C6_fixed_point_rescale SaturatingRoundingDoublingHighMul_reference
             s (Lanes.combine 32 [1000; -1000; 0; 2147483647]) 0 0).
    simpl; lia.
  - vm_compute. reflexivity.
Defined.

(** ** OutputStageBiasAddition *)

Lemma BiasAddition_Row_lanes (s : BiasAddition.OutputStage Row)
    (v row col b : Z) :
  VectorMap_at (BiasAddition.bias_vector s) col = Some b →
  epi32 <$> BiasAddition.Eval4 s v row col
  = Some ((fun x => Lanes.signed 32 (x + b)) <$> epi32 v).
Proof.
  intros Hb. unfold BiasAddition.Eval4. rewrite Hb.
  cbn [mbind option_bind fmap option_fmap option_map]. f_equal.
  apply epi32_Add_Dup.
Qed.

Lemma BiasAddition_Col_lanes (s : BiasAddition.OutputStage Col)
    (v row col b0 b1 b2 b3 : Z) :
  VectorMap_at (BiasAddition.bias_vector s) row = Some b0 →
  VectorMap_at (BiasAddition.bias_vector s) (row + 1) = Some b1 →
  VectorMap_at (BiasAddition.bias_vector s) (row + 2) = Some b2 →
  VectorMap_at (BiasAddition.bias_vector s) (row + 3) = Some b3 →
  epi32 <$> BiasAddition.Eval4 s v row col
  = Some (zip_with (fun x b => Lanes.signed 32 (x + b))
                   (epi32 v) [b0; b1; b2; b3]).
Proof.
  intros H0 H1 H2 H3. unfold BiasAddition.Eval4, _mm_lddqu_si128.
  rewrite H0, H1, H2, H3.
  cbn [mbind option_bind fmap option_fmap option_map]. f_equal.
  unfold Add, _mm_add_epi32.
  rewrite epi32_zip_with, epi32_combine by reflexivity.
  lanes4 v. cbn [zip_with fmap list_fmap].
  rewrite !signed_add_r by lia. reflexivity.
Qed.

(** C7. For every BiasAdd stage and 4-wide fragment: with a row-shaped bias
    vector, the single value at index col is added to each of the four
    elements; with a column-shaped bias vector, the four consecutive values
    from index row on are added lane for lane. The sums wrap to 32 bits. *)
Theorem C7_bias_addition (v row col : Z) :
  (∀ (s : BiasAddition.OutputStage Row) b,
     VectorMap_at (BiasAddition.bias_vector s) col = Some b →
     epi32 <$> Eval s v row col
     = Some ((fun x => Lanes.signed 32 (x + b)) <$> epi32 v))
  ∧ (∀ (s : BiasAddition.OutputStage Col) b0 b1 b2 b3,
       VectorMap_at (BiasAddition.bias_vector s) row = Some b0 →
       VectorMap_at (BiasAddition.bias_vector s) (row + 1) = Some b1 →
       VectorMap_at (BiasAddition.bias_vector s) (row + 2) = Some b2 →
       VectorMap_at (BiasAddition.bias_vector s) (row + 3) = Some b3 →
       epi32 <$> Eval s v row col
       = Some (zip_with (fun x b => Lanes.signed 32 (x + b))
                        (epi32 v) [b0; b1; b2; b3])).
Proof.
  split.
  - intros s b. apply BiasAddition_Row_lanes.
  - intros s b0 b1 b2 b3. apply BiasAddition_Col_lanes.
Qed.

Lemma C7_bias_addition_witness :
  let v := Lanes.combine 32 [100; 200; 300; 400] in
  let bias tShape :=
    {| BiasAddition.bias_vector :=
         {| elements := [1; 2; 3; 4; 5; 6; 7; 8] |} |}
    : BiasAddition.OutputStage tShape in
  epi32 <$> Eval (bias Row) v 2 3 = Some [104; 204; 304; 404]
  ∧ epi32 <$> Eval (bias Col) v 2 3 = Some [103; 204; 305; 406].
Proof.
  intros v bias. split.
  - etrans; [apply (proj1 (C7_bias_addition v 2 3) (bias Row) 4); reflexivity|].
    vm_compute. reflexivity.
  - etrans;
      [apply (proj2 (C7_bias_addition v 2 3) (bias Col) 3 4 5 6); reflexivity|].
    vm_compute. reflexivity.
Defined.

(** C8, as amended. BiasAdd with the bias vector [5,10,15,20], applied to a
    4-wide fragment at row = 0, col = 0: when the vector is row-shaped, 5 is
    added to each of the four elements; when it is column-shaped, 5, 10, 15
    and 20 are added to the elements 0, 1, 2 and 3. *)
Theorem C8_bias_scenario (v : Z) :
  let bias tShape :=
    {| BiasAddition.bias_vector := {| elements := [5; 10; 15; 20] |} |}
    : BiasAddition.OutputStage tShape in
  epi32 <$> Eval (bias Row) v 0 0
  = Some ((fun x => Lanes.signed 32 (x + 5)) <$> epi32 v)
  ∧ epi32 <$> Eval (bias Col) v 0 0
    = Some (zip_with (fun x b => Lanes.signed 32 (x + b))
                     (epi32 v) [5; 10; 15; 20]).
Proof.
  intros bias. split.
  - apply (BiasAddition_Row_lanes (bias Row)). reflexivity.
  - apply (BiasAddition_Col_lanes (bias Col)); reflexivity.
Qed.

(** C8, as stated, fails: the column-shaped vector [5,10,15,20] at row = 0,
    col = 0 does not add 5 to every element of the fragment of zeros. *)
Lemma C8_column_bias_counterexample :
  let s : BiasAddition.OutputStage Col :=
    {| BiasAddition.bias_vector := {| elements := [5; 10; 15; 20] |} |} in
  epi32 <$> Eval s (Dup 0) 0 0 = Some [5; 10; 15; 20]
  ∧ ¬ (epi32 <$> Eval s (Dup 0) 0 0
       = Some ((fun x => Lanes.signed 32 (x + 5)) <$> epi32 (Dup 0))).
Proof. intros s. split; [vm_compute; reflexivity|vm_compute; congruence]. Qed.

(** ** OutputStageSaturatingCastToUint8 *)

Lemma split_mod (w : Z) (n : nat) (v : Z) :
  0 <= w →
  Lanes.split w n (v mod 2 ^ (w * Z.of_nat n)) = Lanes.split w n v.
Proof.
  intros Hw. pose proof (pow2_pos w Hw) as Hp.
  revert v. induction n as [|n IH]; intros v; [reflexivity|].
  cbn [Lanes.split].
  assert (2 ^ (w * Z.of_nat (S n)) = 2 ^ w * 2 ^ (w * Z.of_nat n)) as ->.
  { rewrite <- Z.pow_add_r by lia. f_equal; lia. }
  pose proof (pow2_pos (w * Z.of_nat n) ltac:(lia)) as Hq.
  rewrite Z.rem_mul_r by lia.
  f_equal.
  - rewrite (Z.mul_comm (2 ^ w)), Z.mod_add by lia. apply Z.mod_mod; lia.
  - rewrite <- (IH (v / 2 ^ w)). f_equal.
    rewrite (Z.mul_comm (2 ^ w)), Z.div_add by lia.
    rewrite Z.div_small; [lia|]. apply Z.mod_pos_bound; lia.
Qed.

Lemma split_take (w : Z) (n m : nat) (v : Z) :
  take n (Lanes.split w (n + m) v) = Lanes.split w n v.
Proof.
  revert v. induction n as [|n IH]; intros v; [reflexivity|].
  cbn [Nat.add Lanes.split take]. f_equal. apply IH.
Qed.

Lemma signed_mod_pow (w y : Z) :
  0 < w → Lanes.signed w y mod 2 ^ w = y mod 2 ^ w.
Proof.
  intros Hw. unfold Lanes.signed. pose proof (pow2_pos w ltac:(lia)).
  rewrite Zminus_mod_idemp_l. f_equal; lia.
Qed.

Lemma saturate_unsigned_range (w x : Z) :
  0 <= w → 0 <= saturate_unsigned w x < 2 ^ w.
Proof.
  intros Hw. pose proof (pow2_pos w Hw). unfold saturate_unsigned. lia.
Qed.

Lemma epi16_packus_epi32 (a b : Z) :
  epi16 (_mm_packus_epi32 a b)
  = (fun x => Lanes.signed 16 (saturate_unsigned 16 x))
    <$> (epi32 a ++ epi32 b).
Proof.
  unfold _mm_packus_epi32.
  rewrite epi16_combine, <- list_fmap_compose; [reflexivity|].
  rewrite length_fmap, length_app, !length_epi32. reflexivity.
Qed.

Lemma length_epi16 (v : Z) : length (epi16 v) = 8%nat.
Proof. unfold epi16. rewrite length_fmap. apply length_split. Qed.

Lemma epu8_packus_epi16 (a b : Z) :
  epu8 (_mm_packus_epi16 a b) = saturate_unsigned 8 <$> (epi16 a ++ epi16 b).
Proof.
  unfold _mm_packus_epi16.
  rewrite epu8_combine, <- list_fmap_compose.
  - apply list_fmap_ext. intros _ x _. cbn [compose].
    apply Z.mod_small, saturate_unsigned_range; lia.
  - rewrite length_fmap, length_app, !length_epi16. reflexivity.
Qed.

(** The 16-wide evaluator, its loop unrolled. *)
Lemma SaturatingCast_Eval16_unrolled (v0 v1 v2 v3 row col : Z) :
  SaturatingCastToUint8.Eval16 [v0; v1; v2; v3] row col
  = _mm_packus_epi16 (_mm_packus_epi32 v0 v1) (_mm_packus_epi32 v2 v3).
Proof. reflexivity. Qed.

Lemma SaturatingCast_Eval16_bytes (v0 v1 v2 v3 row col : Z) :
  epu8 (SaturatingCastToUint8.Eval16 [v0; v1; v2; v3] row col)
  = packed_byte <$> (epi32 v0 ++ epi32 v1 ++ epi32 v2 ++ epi32 v3).
Proof.
  rewrite SaturatingCast_Eval16_unrolled, epu8_packus_epi16.
  rewrite !epi16_packus_epi32, <- fmap_app, <- list_fmap_compose.
  rewrite <- !app_assoc. reflexivity.
Qed.

Lemma SaturatingCast_Eval4_bytes (v row col : Z) :
  SaturatingCastToUint8.bytes4 (SaturatingCastToUint8.Eval4 v row col)
  = packed_byte <$> epi32 v.
Proof.
  unfold SaturatingCastToUint8.bytes4, SaturatingCastToUint8.Eval4,
    _mm_cvtsi128_si32.
  rewrite signed_mod_pow, Z.mod_mod by lia.
  rewrite (split_mod 8 4) by lia.
  rewrite <- (split_take 8 4 12). change (4 + 12)%nat with 16%nat.
  fold (epu8 (_mm_packus_epi16 (_mm_packus_epi32 v (Dup 0)) (Dup 0))).
  rewrite epu8_packus_epi16, epi16_packus_epi32.
  lanes4 v. reflexivity.
Qed.

(** What the two packs make of a 32-bit element: the saturation of the
    specification up to 32767, and 0 above, where the unsigned 16-bit result
    of the first pack reads as a negative 16-bit lane in the second. *)
Lemma packed_byte_cases (x : Z) :
  packed_byte x
  = if x <=? 0 then 0
    else if x <=? 255 then x
    else if x <=? 32767 then 255
    else 0.
Proof.
  unfold packed_byte, saturate_unsigned at 2.
  change (2 ^ 16 - 1) with 65535.
  assert (∀ u, 0 <= u < 32768 → Lanes.signed 16 u = u) as Hlow.
  { intros u Hu. apply signed_small; [lia|]. change (2 ^ (16 - 1)) with 32768. lia. }
  assert (∀ u, 32768 <= u <= 65535 → Lanes.signed 16 u = u - 65536) as Hhigh.
  { intros u Hu. unfold Lanes.signed.
    change (2 ^ (16 - 1)) with 32768. change (2 ^ 16) with 65536.
    replace (u + 32768) with (u - 32768 + 1 * 65536) by lia.
    rewrite Z.mod_add, Z.mod_small by lia. lia. }
  unfold saturate_unsigned. change (2 ^ 8 - 1) with 255.
  destruct (Z.leb_spec x 0).
  { rewrite Hlow by lia. lia. }
  destruct (Z.leb_spec x 255).
  { rewrite Hlow by lia. lia. }
  destruct (Z.leb_spec x 32767).
  { rewrite Hlow by lia. lia. }
  rewrite Hhigh by lia. lia.
Qed.

Lemma packed_byte_below_32768 (x : Z) :
  x <= 32767 → packed_byte x = SaturatingNarrow_spec x.
Proof.
  intros Hx. rewrite packed_byte_cases. unfold SaturatingNarrow_spec.
  destruct (Z.leb_spec x 0); [reflexivity|].
  destruct (Z.leb_spec x 255), (Z.leb_spec 255 x),(Z.leb_spec x 32767);
    first [reflexivity|lia].
Qed.

(** C2. For every 16-element int32 input fragment, the sixteen bytes that the
    16-wide SaturatingCastToUint8 evaluator returns are, in order, the four
    bytes of the 4-wide evaluator on the first sub-group, then on the second,
    the third and the fourth. *)
Theorem C2_saturating_cast_16_wide_is_4_wide_four_times
    (v0 v1 v2 v3 row col : Z) :
  epu8 (SaturatingCastToUint8.Eval16 [v0; v1; v2; v3] row col)
  = SaturatingCastToUint8.bytes4 (SaturatingCastToUint8.Eval4 v0 row col)
    ++ SaturatingCastToUint8.bytes4
         (SaturatingCastToUint8.Eval4 v1 (row + 4) col)
    ++ SaturatingCastToUint8.bytes4
         (SaturatingCastToUint8.Eval4 v2 (row + 8) col)
    ++ SaturatingCastToUint8.bytes4
         (SaturatingCastToUint8.Eval4 v3 (row + 12) col).
Proof.
  rewrite SaturatingCast_Eval16_bytes, !SaturatingCast_Eval4_bytes.
  rewrite !fmap_app. reflexivity.
Qed.

(** C4: the code at the inputs where it leaves the claim. Elements above
    32767 come out as 0 and not as 255, on the 4-wide and on the 16-wide
    path alike. *)
Theorem C4_saturating_cast_above_32767 :
  let v := Lanes.combine 32 [32768; 40000; 65536; 2147483647] in
  SaturatingCastToUint8.bytes4 (SaturatingCastToUint8.Eval4 v 0 0)
  = [0; 0; 0; 0]
  ∧ epu8 (SaturatingCastToUint8.Eval16 [v; v; v; v] 0 0) = replicate 16 0
  ∧ SaturatingNarrow_spec <$> epi32 v = [255; 255; 255; 255].
Proof. intros v. vm_compute. auto. Qed.

(** ** OutputStageQuantizeDownInt32ToUint8ScalePC *)


(** C5: the code where it leaves the claim. With offsets [10,...,70] and
    multipliers [1,...,7], shift 0, on the fragment of ones at row = 0,
    col = 0, the claim has the row variant give [11,42,93,164] and the
    column variant [11,11,11,11]. Under either reading of the two locals,
    one of the two variants fails to do so: both read their vector the same
    way. *)
Theorem C5_per_channel_variants_index_alike :
  let offset := [10; 20; 30; 40; 50; 60; 70] in
  let multiplier := [1; 2; 3; 4; 5; 6; 7] in
  let pc tShape :=
    {| QuantizeDownInt32ToUint8ScalePC.result_offset :=
         {| elements := offset |};
       QuantizeDownInt32ToUint8ScalePC.result_mult_int :=
         {| elements := multiplier |};
       QuantizeDownInt32ToUint8ScalePC.result_shift := 0 |}
    : QuantizeDownInt32ToUint8ScalePC.OutputStage tShape in
  PerChannelRescale_row_spec offset multiplier 0 0 (epi32 (Dup 1))
  = [11; 42; 93; 164]
  ∧ PerChannelRescale_col_spec offset multiplier 0 0 (epi32 (Dup 1))
    = [11; 11; 11; 11]
  ∧ epi32 <$> QuantizeDownInt32ToUint8ScalePC.EvalCol
                QuantizeDownInt32ToUint8ScalePC.AsDeclared (pc Col) (Dup 1) 0 0
    = Some [11; 11; 11; 11]
  ∧ epi32 <$> QuantizeDownInt32ToUint8ScalePC.EvalRow
                QuantizeDownInt32ToUint8ScalePC.AsLoaded (pc Row) (Dup 1) 0 0
    = Some [11; 42; 93; 164]
  ∧ ∀ rd,
      ¬ (epi32 <$> QuantizeDownInt32ToUint8ScalePC.EvalCol rd (pc Col)
                     (Dup 1) 0 0
         = Some (PerChannelRescale_row_spec offset multiplier 0 0
                   (epi32 (Dup 1)))
         ∧ epi32 <$> QuantizeDownInt32ToUint8ScalePC.EvalRow rd (pc Row)
                       (Dup 1) 0 0
           = Some (PerChannelRescale_col_spec offset multiplier 0 0
                     (epi32 (Dup 1)))).
Proof.
  intros offset multiplier pc.
  do 4 (split; [vm_compute; reflexivity|]).
  intros [|]; vm_compute; intros [Hrow Hcol]; congruence.
Qed.

(** ** StoreFinalOutput *)

Lemma length_epu8 (v : Z) : length (epu8 v) = 16%nat.
Proof. apply length_split. Qed.

Lemma storeu_lookup_outside (p v : Z) (mem : gmap Z Z) (a : Z) :
  ¬ (p <= a < p + 16) →
  Store._mm_storeu_si128 p v mem !! a = mem !! a.
Proof.
  intros Ha. unfold Store._mm_storeu_si128.
  apply lookup_union_r, not_elem_of_list_to_map_1.
  rewrite fst_zip by (rewrite length_seqZ, length_epu8; lia).
  rewrite elem_of_seqZ. lia.
Qed.

Lemma storeu_idemp (p v : Z) (mem : gmap Z Z) :
  Store._mm_storeu_si128 p v (Store._mm_storeu_si128 p v mem)
  = Store._mm_storeu_si128 p v mem.
Proof.
  unfold Store._mm_storeu_si128.
  by rewrite (assoc_L (∪)), (idemp_L (∪)).
Qed.

Lemma StoreFinalOutput_Int32x16x1_one_store (as_m128i : list Z → Z)
    (value : list Z) (dst : Store.DstType) (row col : Z) (mem : gmap Z Z) :
  Store.StoreFinalOutput_Int32x16x1 as_m128i value dst row col mem
  = Store._mm_storeu_si128 (Store.data dst row col) (as_m128i value) mem.
Proof.
  unfold Store.StoreFinalOutput_Int32x16x1, for_int.
  change (seqZ 0 4) with [0; 1; 2; 3]. cbn [foldl].
  by rewrite !storeu_idemp.
Qed.

Lemma load_int32_absent (mem : gmap Z Z) (p : Z) :
  mem !! p = None → Store.load_int32 mem p = None.
Proof. intros H. unfold Store.load_int32. by rewrite H. Qed.

(** C9: the code where it leaves the claim. Whatever register the fragment
    stands for, the four stores of the 16-wide int32 store go to the one
    address data(row, col) and amount to a single 16-byte store. On a
    destination whose elements follow one another in an empty memory, the
    elements 4, 8 and 12 of the fragment 1..16 are not there after the
    store; storing sub-group i at data(row + 4 * i, col) puts them there. *)
Theorem C9_store_int32x16_same_address (as_m128i : list Z → Z) :
  (∀ value dst row col mem,
     Store.StoreFinalOutput_Int32x16x1 as_m128i value dst row col mem
     = Store._mm_storeu_si128 (Store.data dst row col) (as_m128i value) mem)
  ∧ let value := [Lanes.combine 32 [1; 2; 3; 4];
                  Lanes.combine 32 [5; 6; 7; 8];
                  Lanes.combine 32 [9; 10; 11; 12];
                  Lanes.combine 32 [13; 14; 15; 16]] in
    let dst := {| Store.data := fun row col => 4 * (row + 16 * col) |} in
    let stored := Store.StoreFinalOutput_Int32x16x1 as_m128i value dst 0 0 ∅ in
    let wanted := Store.store_distinct value dst 0 0 ∅ in
    Store.load_int32 stored (Store.data dst 4 0) = None
    ∧ Store.load_int32 stored (Store.data dst 8 0) = None
    ∧ Store.load_int32 stored (Store.data dst 12 0) = None
    ∧ Store.load_int32 wanted (Store.data dst 4 0) = Some 5
    ∧ Store.load_int32 wanted (Store.data dst 8 0) = Some 9
    ∧ Store.load_int32 wanted (Store.data dst 12 0) = Some 13.
Proof.
  split; [apply StoreFinalOutput_Int32x16x1_one_store|].
  intros value dst stored wanted.
  assert (∀ p, 16 <= p → Store.load_int32 stored p = None) as Hout.
  { intros p Hp. apply load_int32_absent. unfold stored.
    rewrite StoreFinalOutput_Int32x16x1_one_store.
    rewrite storeu_lookup_outside by (cbn; lia). apply lookup_empty. }
  do 3 (split; [apply Hout; cbn; lia|]).
  repeat split; vm_compute; reflexivity.
Qed.

(** ** The generic 16-wide evaluator *)

Lemma scalar_reference_app (f : Z → Z → Z → option Z) (row col : Z)
    (xs ys : list Z) :
  scalar_reference f row col (xs ++ ys)
  = (xs' ← scalar_reference f row col xs;
     ys' ← scalar_reference f (row + Z.of_nat (length xs)) col ys;
     Some (xs' ++ ys')).
Proof.
  revert row. induction xs as [|x xs IH]; intros row.
  - cbn [app scalar_reference length mbind option_bind].
    rewrite Z.add_0_r. by destruct (scalar_reference f row col ys).
  - cbn [app scalar_reference length]. rewrite IH.
    replace (row + 1 + Z.of_nat (length xs))
      with (row + Z.of_nat (S (length xs))) by lia.
    destruct (f row col x); [|reflexivity].
    cbn [mbind option_bind].
    destruct (scalar_reference f (row + 1) col xs); [|reflexivity].
    cbn [mbind option_bind].
    by destruct (scalar_reference f _ col ys).
Qed.

(** The loop of the generic evaluator, unrolled. *)
Lemma Eval_Int32x16x1_unrolled {OutputStageType : Type}
    `{!OutputStageEvalImpl OutputStageType}
    (s : OutputStageType) (v0 v1 v2 v3 row col : Z) :
  Eval_Int32x16x1 s [v0; v1; v2; v3] row col
  = (o0 ← Eval s v0 row col;
     o1 ← Eval s v1 (row + 4) col;
     o2 ← Eval s v2 (row + 8) col;
     o3 ← Eval s v3 (row + 12) col;
     Some [o0; o1; o2; o3]).
Proof.
  unfold Eval_Int32x16x1, for_int.
  change (seqZ 0 4) with [0; 1; 2; 3]. cbn [foldl].
  change (4 * 0) with 0. change (4 * 1) with 4.
  change (4 * 2) with 8. change (4 * 3) with 12.
  rewrite Z.add_0_r.
  change ([v0; v1; v2; v3] !!! Z.to_nat 0) with v0.
  change ([v0; v1; v2; v3] !!! Z.to_nat 1) with v1.
  change ([v0; v1; v2; v3] !!! Z.to_nat 2) with v2.
  change ([v0; v1; v2; v3] !!! Z.to_nat 3) with v3.
  cbn [mbind option_bind].
  destruct (Eval s v0 row col) as [o0|]; [|reflexivity].
  cbn [mbind option_bind].
  destruct (Eval s v1 (row + 4) col) as [o1|]; [|reflexivity].
  cbn [mbind option_bind].
  destruct (Eval s v2 (row + 8) col) as [o2|]; [|reflexivity].
  cbn [mbind option_bind].
  destruct (Eval s v3 (row + 12) col) as [o3|]; reflexivity.
Qed.

(** C1. For every output stage kind with a 4-wide implementation, the
    generic evaluation of a 16-wide fragment is the 4-wide Eval of the four
    sub-fragments at the rows row, row + 4, row + 8 and row + 12 and the same
    column, put together in that order. When the 4-wide Eval is an
    element-by-element scalar reference on four elements, the generic 16-wide
    evaluation is that reference on the sixteen elements. *)
Theorem C1_generic_decomposition {OutputStageType : Type}
    `{!OutputStageEvalImpl OutputStageType}
    (s : OutputStageType) (v0 v1 v2 v3 row col : Z) :
  Eval_Int32x16x1 s [v0; v1; v2; v3] row col
  = (o0 ← Eval s v0 row col;
     o1 ← Eval s v1 (row + 4) col;
     o2 ← Eval s v2 (row + 8) col;
     o3 ← Eval s v3 (row + 12) col;
     Some [o0; o1; o2; o3])
  ∧ ∀ f : Z → Z → Z → option Z,
      (∀ v r c, epi32 <$> Eval s v r c = scalar_reference f r c (epi32 v)) →
      (fun output => concat (epi32 <$> output))
        <$> Eval_Int32x16x1 s [v0; v1; v2; v3] row col
      = scalar_reference f row col
          (epi32 v0 ++ epi32 v1 ++ epi32 v2 ++ epi32 v3).
Proof.
  split; [apply Eval_Int32x16x1_unrolled|].
  intros f Hf. rewrite Eval_Int32x16x1_unrolled.
  rewrite !scalar_reference_app, !length_epi32.
  replace (row + Z.of_nat 4) with (row + 4) by lia.
  replace (row + 4 + Z.of_nat 4) with (row + 8) by lia.
  replace (row + 8 + Z.of_nat 4) with (row + 12) by lia.
  rewrite <- !Hf.
  destruct (Eval s v0 row col) as [o0|]; [|reflexivity].
  destruct (Eval s v1 (row + 4) col) as [o1|]; [|reflexivity].
  destruct (Eval s v2 (row + 8) col) as [o2|]; [|reflexivity].
  destruct (Eval s v3 (row + 12) col) as [o3|]; [|reflexivity].
  reflexivity.
Qed.

(** The 4-wide bias addition with a column-shaped vector is the scalar
    addition of the bias of the row, element by element. *)
Lemma BiasAddition_Col_scalar_reference (s : BiasAddition.OutputStage Col)
    (v row col : Z) :
  epi32 <$> Eval s v row col
  = scalar_reference
      (fun r c x =>
         b ← VectorMap_at (BiasAddition.bias_vector s) r;
         Some (Lanes.signed 32 (x + b)))
      row col (epi32 v).
Proof.
  change (Eval s v row col) with (BiasAddition.Eval4 s v row col).
  pose proof (BiasAddition_Col_lanes s v row col) as Hlanes.
  unfold BiasAddition.Eval4, _mm_lddqu_si128 in *.
  lanes4 v. cbn [scalar_reference].
  replace (row + 1 + 1) with (row + 2) by lia.
  replace (row + 2 + 1) with (row + 3) by lia.
  destruct (VectorMap_at _ row) as [b0|]; [|reflexivity].
  destruct (VectorMap_at _ (row + 1)) as [b1|]; [|reflexivity].
  destruct (VectorMap_at _ (row + 2)) as [b2|]; [|reflexivity].
  destruct (VectorMap_at _ (row + 3)) as [b3|]; [|reflexivity].
  by rewrite (Hlanes b0 b1 b2 b3).
Qed.

Lemma C1_generic_decomposition_witness :
  let s : BiasAddition.OutputStage Col :=
    {| BiasAddition.bias_vector := {| elements := seqZ 100 20 |} |} in
  let v := Lanes.combine 32 [1; 2; 3; 4] in
  (fun output => concat (epi32 <$> output))
    <$> Eval_Int32x16x1 s [v; v; v; v] 2 0
  = scalar_reference
      (fun r c x =>
         b ← VectorMap_at (BiasAddition.bias_vector s) r;
         Some (Lanes.signed 32 (x + b)))
      2 0 (epi32 v ++ epi32 v ++ epi32 v ++ epi32 v).
Proof.
  intros s v.
  apply (proj2 (C1_generic_decomposition s v v v v 2 0)).
  intros v' r c. apply BiasAddition_Col_scalar_reference.
Defined.

(** * Further properties of the evaluators and of the store adapter *)

(** ** Clamp *)

Lemma Clamp_Eval4_Some (s : Clamp.OutputStage) (v row col : Z) :
  ∃ out,
    Clamp.Eval4 s v row col = Some out
    ∧ epi32 out
      = (fun x => Z.min (Z.max x (Lanes.signed 32 (Clamp.min s)))
                        (Lanes.signed 32 (Clamp.max s))) <$> epi32 v.
Proof.
  pose proof (Clamp_lanes s v row col) as H.
  unfold Clamp.Eval4 in *. eexists. split; [reflexivity|].
  cbn [fmap option_fmap option_map] in H. exact (inj Some _ _ H).
Qed.

(** X1. With 32-bit bounds min <= max, every element of the result of the
    Clamp evaluator lies between min and max. *)
Theorem X1_clamp_within_bounds (s : Clamp.OutputStage) (v row col : Z) :
  in_int32 (Clamp.min s) → in_int32 (Clamp.max s) →
  Clamp.min s <= Clamp.max s →
  ∃ out,
    Eval s v row col = Some out
    ∧ Forall (fun y => Clamp.min s <= y <= Clamp.max s) (epi32 out).
Proof.
  intros Hmin Hmax Hle.
  destruct (Clamp_Eval4_Some s v row col) as (out & Hout & Hlanes).
  exists out. split; [exact Hout|].
  rewrite Hlanes, !signed_small by (unfold in_int32 in *; lia).
  apply Forall_fmap, Forall_true. intros x. cbn. lia.
Qed.

Lemma X1_clamp_within_bounds_witness :
  ∃ out,
    Eval {| Clamp.min := 10; Clamp.max := 20 |}
         (Lanes.combine 32 [-5; 15; 25; -2147483648]) 0 0 = Some out
    ∧ Forall (fun y => 10 <= y <= 20) (epi32 out).
Proof.
  apply (X1_clamp_within_bounds {| Clamp.min := 10; Clamp.max := 20 |});
    unfold in_int32; simpl; lia.
Defined.

(** X2. Clamping twice with the same stage is clamping once, whatever the
    bounds and their order. *)
Theorem X2_clamp_idempotent (s : Clamp.OutputStage)
    (v row col row' col' : Z) :
  Eval s v row col ≫= (fun out => epi32 <$> Eval s out row' col')
  = epi32 <$> Eval s v row col.
Proof.
  change (Eval s v row col) with (Clamp.Eval4 s v row col).
  destruct (Clamp_Eval4_Some s v row col) as (out & -> & Hlanes).
  cbn [mbind option_bind fmap option_fmap option_map].
  change (Eval s out row' col') with (Clamp.Eval4 s out row' col').
  rewrite Clamp_lanes, Hlanes, <- list_fmap_compose.
  f_equal. apply list_fmap_ext. intros _ x _. cbn. lia.
Qed.

(** ** The saturating cast on every input *)

(** X3. The 4-wide and the 16-wide saturating casts send an element x to 0
    when x <= 0, to x when 0 < x <= 255, to 255 when 255 < x <= 32767, and
    to 0 when x > 32767. *)
Theorem X3_saturating_cast_on_every_element (v v0 v1 v2 v3 row col : Z) :
  let cast x :=
    if x <=? 0 then 0
    else if x <=? 255 then x
    else if x <=? 32767 then 255
    else 0 in
  SaturatingCastToUint8.bytes4 (SaturatingCastToUint8.Eval4 v row col)
  = cast <$> epi32 v
  ∧ epu8 (SaturatingCastToUint8.Eval16 [v0; v1; v2; v3] row col)
    = cast <$> (epi32 v0 ++ epi32 v1 ++ epi32 v2 ++ epi32 v3).
Proof.
  intros cast.
  rewrite SaturatingCast_Eval4_bytes, SaturatingCast_Eval16_bytes.
  split; apply list_fmap_ext; intros _ x _; apply packed_byte_cases.
Qed.

Lemma packed_byte_id (x : Z) : 0 <= x <= 255 → packed_byte x = x.
Proof.
  intros Hx. rewrite packed_byte_cases.
  destruct (Z.leb_spec x 0); [lia|].
  destruct (Z.leb_spec x 255); [reflexivity|lia].
Qed.

(** X4. A Clamp stage with bounds in 0..255 followed by the 4-wide
    saturating cast gives the clamped elements themselves as bytes. *)
Theorem X4_clamp_then_cast_4_wide (s : Clamp.OutputStage)
    (v row col row' col' : Z) :
  0 <= Clamp.min s <= 255 → 0 <= Clamp.max s <= 255 →
  (fun out => SaturatingCastToUint8.bytes4
                (SaturatingCastToUint8.Eval4 out row' col'))
    <$> Eval s v row col
  = Some ((fun x => Z.min (Z.max x (Clamp.min s)) (Clamp.max s)) <$> epi32 v).
Proof.
  intros Hmin Hmax.
  change (Eval s v row col) with (Clamp.Eval4 s v row col).
  destruct (Clamp_Eval4_Some s v row col) as (out & -> & Hlanes).
  cbn [fmap option_fmap option_map]. f_equal.
  rewrite SaturatingCast_Eval4_bytes, Hlanes, <- list_fmap_compose.
  rewrite !signed_small by lia.
  apply list_fmap_ext. intros _ x _. cbn. apply packed_byte_id. lia.
Qed.

Lemma X4_clamp_then_cast_4_wide_witness :
  (fun out => SaturatingCastToUint8.bytes4
                (SaturatingCastToUint8.Eval4 out 0 0))
    <$> Eval {| Clamp.min := 0; Clamp.max := 255 |}
             (Lanes.combine 32 [-7; 188; 40000; 2147483647]) 0 0
  = Some [0; 188; 255; 255].
Proof.
  etrans.
  - apply (X4_clamp_then_cast_4_wide {| Clamp.min := 0; Clamp.max := 255 |}
             (Lanes.combine 32 [-7; 188; 40000; 2147483647]) 0 0 0 0);
      simpl; lia.
  - vm_compute. reflexivity.
Defined.

(** X5. The same on the 16-wide path: the generic 16-wide evaluation of a
    Clamp stage with bounds in 0..255, followed by the 16-wide saturating
    cast, gives the sixteen clamped elements as bytes, in order. *)
Theorem X5_clamp_then_cast_16_wide (s : Clamp.OutputStage)
    (v0 v1 v2 v3 row col row' col' : Z) :
  0 <= Clamp.min s <= 255 → 0 <= Clamp.max s <= 255 →
  (fun out => epu8 (SaturatingCastToUint8.Eval16 out row' col'))
    <$> Eval_Int32x16x1 s [v0; v1; v2; v3] row col
  = Some ((fun x => Z.min (Z.max x (Clamp.min s)) (Clamp.max s))
          <$> (epi32 v0 ++ epi32 v1 ++ epi32 v2 ++ epi32 v3)).
Proof.
  intros Hmin Hmax. rewrite Eval_Int32x16x1_unrolled.
  change (@Eval _ Clamp.impl) with Clamp.Eval4.
  destruct (Clamp_Eval4_Some s v0 row col) as (o0 & -> & H0).
  destruct (Clamp_Eval4_Some s v1 (row + 4) col) as (o1 & -> & H1).
  destruct (Clamp_Eval4_Some s v2 (row + 8) col) as (o2 & -> & H2).
  destruct (Clamp_Eval4_Some s v3 (row + 12) col) as (o3 & -> & H3).
  cbn [mbind option_bind fmap option_fmap option_map]. f_equal.
  rewrite SaturatingCast_Eval16_bytes, H0, H1, H2, H3.
  rewrite <- !fmap_app, <- list_fmap_compose.
  rewrite !signed_small by lia.
  apply list_fmap_ext. intros _ x _. cbn. apply packed_byte_id. lia.
Qed.

Lemma X5_clamp_then_cast_16_wide_witness :
  let v := Lanes.combine 32 [-7; 188; 40000; 2147483647] in
  (fun out => epu8 (SaturatingCastToUint8.Eval16 out 0 0))
    <$> Eval_Int32x16x1 {| Clamp.min := 0; Clamp.max := 255 |} [v; v; v; v] 0 0
  = Some [0; 188; 255; 255; 0; 188; 255; 255;
          0; 188; 255; 255; 0; 188; 255; 255].
Proof.
  intros v. etrans.
  - apply (X5_clamp_then_cast_16_wide {| Clamp.min := 0; Clamp.max := 255 |}
             v v v v 0 0 0 0); simpl; lia.
  - vm_compute. reflexivity.
Defined.

(** ** The uniform rescale without overflow *)

(** X6. When, for every element x of the fragment, x + offset, the product
    (x + offset) * multiplier and the product plus the rounding term are
    32-bit values, and 0 <= shift <= 31, the uniform rescale gives the exact
    integer ((x + offset) * multiplier + roundingTerm) / 2^shift, rounded
    towards minus infinity. *)
Theorem X6_uniform_rescale_exact
    (s : QuantizeDownInt32ToUint8Scale.OutputStage) (v row col : Z) :
  let offset := QuantizeDownInt32ToUint8Scale.result_offset s in
  let mult := QuantizeDownInt32ToUint8Scale.result_mult_int s in
  let shift := QuantizeDownInt32ToUint8Scale.result_shift s in
  0 <= shift <= 31 →
  Forall (fun x => in_int32 (x + offset)
                   ∧ in_int32 ((x + offset) * mult)
                   ∧ in_int32 ((x + offset) * mult + roundingTerm_spec shift))
         (epi32 v) →
  epi32 <$> Eval s v row col
  = Some ((fun x => ((x + offset) * mult + roundingTerm_spec shift) / 2 ^ shift)
          <$> epi32 v).
Proof.
  intros offset mult shift Hs Hv.
  change (Eval s v row col)
    with (QuantizeDownInt32ToUint8Scale.Eval4 s v row col).
  rewrite (Scale_lanes s v row col (Lanes.signed 32 (roundingTerm_spec shift)))
    by (apply kRoundingTerm_spec; fold shift; lia).
  f_equal. apply Forall_fmap_ext_1. eapply Forall_impl; [exact Hv|].
  intros x (H1 & H2 & H3). fold offset mult shift. unfold in_int32 in *.
  rewrite signed_add_r by lia.
  rewrite (signed_small 32 (x + offset)) by (change (32 - 1) with 31; lia).
  rewrite (signed_small 32 (_ * _)) by (change (32 - 1) with 31; lia).
  rewrite (signed_small 32 (_ + _)) by (change (32 - 1) with 31; lia).
  rewrite srai_lane_shiftr by (unfold in_int32; lia).
  apply Z.shiftr_div_pow2. lia.
Qed.

Lemma X6_uniform_rescale_exact_witness :
  epi32 <$> Eval {| QuantizeDownInt32ToUint8Scale.result_offset := -128;
                    QuantizeDownInt32ToUint8Scale.result_mult_int := 3;
                    QuantizeDownInt32ToUint8Scale.result_shift := 4 |}
                 (Lanes.combine 32 [1128; 128; 0; -1000]) 0 0
  = Some [188; 0; -24; -211].
Proof.
  etrans.
  - apply (X6_uniform_rescale_exact
             {| QuantizeDownInt32ToUint8Scale.result_offset := -128;
                QuantizeDownInt32ToUint8Scale.result_mult_int := 3;
                QuantizeDownInt32ToUint8Scale.result_shift := 4 |}
             (Lanes.combine 32 [1128; 128; 0; -1000]) 0 0).
    + simpl; lia.
    + replace (epi32 (Lanes.combine 32 [1128; 128; 0; -1000]))
        with [1128; 128; 0; -1000] by (vm_compute; reflexivity).
      unfold in_int32, roundingTerm_spec.
      repeat (constructor; [cbn; lia|]). constructor.
  - vm_compute. reflexivity.
Defined.

(** ** Failure in the generic 16-wide evaluator *)



(** ** Bias addition: reads, 16-wide evaluation, undoing *)

Lemma VectorMap_at_is_Some {tShape} (v : VectorMap tShape) (index : Z) :
  is_Some (VectorMap_at v index)
  ↔ 0 <= index < Z.of_nat (length (elements v)).
Proof.
  unfold VectorMap_at. destruct (Z.leb_spec 0 index).
  - rewrite lookup_lt_is_Some. lia.
  - rewrite is_Some_alt. lia.
Qed.

(** X8. A row-shaped bias addition is defined exactly when col is an index
    of the bias vector. A column-shaped one is defined exactly when row,
    ..., row + 3 all are: the 128-bit load needs four elements, so the last
    three rows of the vector cannot be the row of a 4-wide fragment. *)
Theorem X8_bias_addition_defined_iff (v row col : Z) :
  (∀ s : BiasAddition.OutputStage Row,
     is_Some (Eval s v row col)
     ↔ 0 <= col < Z.of_nat (length (elements (BiasAddition.bias_vector s))))
  ∧ (∀ s : BiasAddition.OutputStage Col,
       is_Some (Eval s v row col)
       ↔ 0 <= row
         ∧ row + 3 < Z.of_nat (length (elements (BiasAddition.bias_vector s)))).
Proof.
  split; intros s.
  - rewrite <- VectorMap_at_is_Some.
    change (Eval s v row col) with (BiasAddition.Eval4 s v row col).
    unfold BiasAddition.Eval4.
    destruct (VectorMap_at (BiasAddition.bias_vector s) col);
      cbn [fmap option_fmap option_map mbind option_bind];
      rewrite !is_Some_alt; tauto.
  - change (Eval s v row col) with (BiasAddition.Eval4 s v row col).
    unfold BiasAddition.Eval4, _mm_lddqu_si128.
    pose proof (VectorMap_at_is_Some (BiasAddition.bias_vector s) row) as H0.
    pose proof (VectorMap_at_is_Some (BiasAddition.bias_vector s) (row + 1))
      as H1.
    pose proof (VectorMap_at_is_Some (BiasAddition.bias_vector s) (row + 2))
      as H2.
    pose proof (VectorMap_at_is_Some (BiasAddition.bias_vector s) (row + 3))
      as H3.
    destruct (VectorMap_at _ row), (VectorMap_at _ (row + 1)),
             (VectorMap_at _ (row + 2)), (VectorMap_at _ (row + 3));
      cbn [mbind option_bind]; rewrite is_Some_alt in *; try lia.
    all: split; [intros []|].
    all: intros [? ?]; first [apply H0|apply H1|apply H2|apply H3]; lia.
Qed.

Lemma VectorMap_at_window {tShape} (v : VectorMap tShape) (row : Z)
    (n j : nat) :
  0 <= row → (j < n)%nat →
  VectorMap_at v (row + Z.of_nat j)
  = take n (drop (Z.to_nat row) (elements v)) !! j.
Proof.
  intros Hrow Hj. unfold VectorMap_at.
  destruct (Z.leb_spec 0 (row + Z.of_nat j)); [|lia].
  rewrite lookup_take_lt, lookup_drop by lia. f_equal. lia.
Qed.

Lemma BiasAddition_Col_window (s : BiasAddition.OutputStage Col)
    (v row col : Z) :
  0 <= row →
  row + 4 <= Z.of_nat (length (elements (BiasAddition.bias_vector s))) →
  epi32 <$> BiasAddition.Eval4 s v row col
  = Some (zip_with (fun x b => Lanes.signed 32 (x + b)) (epi32 v)
            (take 4 (drop (Z.to_nat row)
                          (elements (BiasAddition.bias_vector s))))).
Proof.
  intros Hrow Hlen.
  pose proof (VectorMap_at_window (BiasAddition.bias_vector s) row 4 0 Hrow
                ltac:(lia)) as H0.
  pose proof (VectorMap_at_window (BiasAddition.bias_vector s) row 4 1 Hrow
                ltac:(lia)) as H1.
  pose proof (VectorMap_at_window (BiasAddition.bias_vector s) row 4 2 Hrow
                ltac:(lia)) as H2.
  pose proof (VectorMap_at_window (BiasAddition.bias_vector s) row 4 3 Hrow
                ltac:(lia)) as H3.
  assert (length (take 4 (drop (Z.to_nat row)
                            (elements (BiasAddition.bias_vector s)))) = 4%nat)
    as Hl by (rewrite length_take, length_drop; apply Nat.min_l; lia).
  destruct (take 4 _) as [|b0 [|b1 [|b2 [|b3 [|? ?]]]]]; try discriminate Hl.
  cbn [lookup list_lookup] in *.
  rewrite Z.add_0_r in H0.
  apply BiasAddition_Col_lanes; assumption.
Qed.

Lemma take_add_drop {A} (n m : nat) (l : list A) :
  take (n + m) l = take n l ++ take m (drop n l).
Proof.
  revert l. induction n as [|n IH]; intros [|x l]; cbn; try reflexivity.
  - by rewrite take_nil.
  - by rewrite IH.
Qed.

(** X9. The generic 16-wide evaluation of a bias addition. Row-shaped: the
    value at index col is added to the sixteen elements. Column-shaped, with
    the sixteen indices row, ..., row + 15 inside the vector: element j gets
    the bias at index row + j. The sums wrap to 32 bits. *)
Theorem X9_bias_addition_16_wide (v0 v1 v2 v3 row col : Z) :
  let lanes output := concat (epi32 <$> output) in
  let input := epi32 v0 ++ epi32 v1 ++ epi32 v2 ++ epi32 v3 in
  (∀ (s : BiasAddition.OutputStage Row) b,
     VectorMap_at (BiasAddition.bias_vector s) col = Some b →
     lanes <$> Eval_Int32x16x1 s [v0; v1; v2; v3] row col
     = Some ((fun x => Lanes.signed 32 (x + b)) <$> input))
  ∧ (∀ s : BiasAddition.OutputStage Col,
       0 <= row →
       row + 16 <= Z.of_nat (length (elements (BiasAddition.bias_vector s))) →
       lanes <$> Eval_Int32x16x1 s [v0; v1; v2; v3] row col
       = Some (zip_with (fun x b => Lanes.signed 32 (x + b)) input
                 (take 16 (drop (Z.to_nat row)
                                (elements (BiasAddition.bias_vector s)))))).
Proof.
  intros lanes input. split.
  - intros s b Hb. rewrite Eval_Int32x16x1_unrolled.
    change (@Eval _ BiasAddition.impl) with (@BiasAddition.Eval4 Row).
    pose proof (BiasAddition_Row_lanes s v0 row col b Hb) as H0.
    pose proof (BiasAddition_Row_lanes s v1 (row + 4) col b Hb) as H1.
    pose proof (BiasAddition_Row_lanes s v2 (row + 8) col b Hb) as H2.
    pose proof (BiasAddition_Row_lanes s v3 (row + 12) col b Hb) as H3.
    destruct (BiasAddition.Eval4 s v0 row col) as [o0|]; [|discriminate H0].
    destruct (BiasAddition.Eval4 s v1 _ col) as [o1|]; [|discriminate H1].
    destruct (BiasAddition.Eval4 s v2 _ col) as [o2|]; [|discriminate H2].
    destruct (BiasAddition.Eval4 s v3 _ col) as [o3|]; [|discriminate H3].
    cbn [fmap option_fmap option_map] in H0, H1, H2, H3.
    apply (inj Some) in H0, H1, H2, H3.
    cbn [mbind option_bind fmap option_fmap option_map]. f_equal.
    unfold lanes, input. cbn [fmap list_fmap concat].
    rewrite H0, H1, H2, H3, app_nil_r, !fmap_app. reflexivity.
  - intros s Hrow Hlen. rewrite Eval_Int32x16x1_unrolled.
    change (@Eval _ BiasAddition.impl) with (@BiasAddition.Eval4 Col).
    pose proof (BiasAddition_Col_window s v0 row col ltac:(lia) ltac:(lia))
      as H0.
    pose proof (BiasAddition_Col_window s v1 (row + 4) col ltac:(lia)
                  ltac:(lia)) as H1.
    pose proof (BiasAddition_Col_window s v2 (row + 8) col ltac:(lia)
                  ltac:(lia)) as H2.
    pose proof (BiasAddition_Col_window s v3 (row + 12) col ltac:(lia)
                  ltac:(lia)) as H3.
    set (E := elements (BiasAddition.bias_vector s)) in *.
    destruct (BiasAddition.Eval4 s v0 row col) as [o0|]; [|discriminate H0].
    destruct (BiasAddition.Eval4 s v1 _ col) as [o1|]; [|discriminate H1].
    destruct (BiasAddition.Eval4 s v2 _ col) as [o2|]; [|discriminate H2].
    destruct (BiasAddition.Eval4 s v3 _ col) as [o3|]; [|discriminate H3].
    cbn [fmap option_fmap option_map] in H0, H1, H2, H3.
    apply (inj Some) in H0, H1, H2, H3.
    cbn [mbind option_bind fmap option_fmap option_map]. f_equal.
    unfold lanes, input. cbn [fmap list_fmap concat].
    rewrite H0, H1, H2, H3, app_nil_r.
    change 16%nat with (4 + (4 + (4 + 4)))%nat.
    rewrite !take_add_drop, !drop_drop.
    replace (Z.to_nat row + 4)%nat with (Z.to_nat (row + 4)) by lia.
    replace (Z.to_nat (row + 4) + 4)%nat with (Z.to_nat (row + 8)) by lia.
    replace (Z.to_nat (row + 8) + 4)%nat with (Z.to_nat (row + 12)) by lia.
    assert (∀ r, 0 <= r → r + 4 <= Z.of_nat (length E) →
                 length (take 4 (drop (Z.to_nat r) E)) = 4%nat) as Hl4.
    { intros r Hr0 Hr. rewrite length_take, length_drop. apply Nat.min_l. lia. }
    rewrite !zip_with_app by (rewrite length_epi32, Hl4; lia).
    reflexivity.
Qed.

Lemma X9_bias_addition_16_wide_witness :
  let lanes output := concat (epi32 <$> output) in
  let v := Lanes.combine 32 [100; 200; 300; 400] in
  let bias tShape :=
    {| BiasAddition.bias_vector := {| elements := seqZ 0 20 |} |}
    : BiasAddition.OutputStage tShape in
  lanes <$> Eval_Int32x16x1 (bias Row) [v; v; v; v] 2 3
  = Some [103; 203; 303; 403; 103; 203; 303; 403;
          103; 203; 303; 403; 103; 203; 303; 403]
  ∧ lanes <$> Eval_Int32x16x1 (bias Col) [v; v; v; v] 2 3
    = Some [102; 203; 304; 405; 106; 207; 308; 409;
            110; 211; 312; 413; 114; 215; 316; 417].
Proof.
  intros lanes v bias. split.
  - etrans;
      [apply (proj1 (X9_bias_addition_16_wide v v v v 2 3) (bias Row) 3);
       reflexivity|].
    vm_compute. reflexivity.
  - etrans;
      [apply (proj2 (X9_bias_addition_16_wide v v v v 2 3) (bias Col));
       simpl; lia|].
    vm_compute. reflexivity.
Defined.

Lemma VectorMap_at_opp {tShape} (v v' : VectorMap tShape) (index : Z) :
  elements v' = Z.opp <$> elements v →
  VectorMap_at v' index = Z.opp <$> VectorMap_at v index.
Proof.
  intros H. unfold VectorMap_at. rewrite H.
  destruct (0 <=? index); [apply list_lookup_fmap|reflexivity].
Qed.

Lemma signed_add_opp (x b : Z) :
  in_int32 x → Lanes.signed 32 (Lanes.signed 32 (x + b) + - b) = x.
Proof.
  intros Hx. rewrite signed_add_l by lia.
  replace (x + b + - b) with x by lia.
  apply signed_small; [lia|]. exact Hx.
Qed.

(** X10. Adding a bias vector and then the vector of the opposite values, at
    the same row and column, gives back the elements of the fragment: the
    wrap-around of the first addition is undone by the second. This holds for
    both shapes, wherever the first addition is defined. *)
Theorem X10_bias_addition_undone {tShape : VectorShape}
    (s s' : BiasAddition.OutputStage tShape) (v row col out : Z) :
  elements (BiasAddition.bias_vector s')
  = Z.opp <$> elements (BiasAddition.bias_vector s) →
  Eval s v row col = Some out →
  epi32 <$> Eval s' out row col = Some (epi32 v).
Proof.
  intros Hopp Hout.
  change (BiasAddition.Eval4 s v row col = Some out) in Hout.
  change (Eval s' out row col) with (BiasAddition.Eval4 s' out row col).
  pose proof (VectorMap_at_opp _ _ col Hopp) as Hc.
  pose proof (VectorMap_at_opp _ _ row Hopp) as H0.
  pose proof (VectorMap_at_opp _ _ (row + 1) Hopp) as H1.
  pose proof (VectorMap_at_opp _ _ (row + 2) Hopp) as H2.
  pose proof (VectorMap_at_opp _ _ (row + 3) Hopp) as H3.
  destruct tShape.
  - destruct (VectorMap_at (BiasAddition.bias_vector s) col) as [b|] eqn:Hb.
    + pose proof (BiasAddition_Row_lanes s v row col b Hb) as Hl.
      rewrite Hout in Hl. cbn [fmap option_fmap option_map] in Hl.
      apply (inj Some) in Hl.
      rewrite (BiasAddition_Row_lanes s' out row col (- b) Hc), Hl.
      f_equal. rewrite <- list_fmap_compose.
      lanes4 v. cbn [fmap list_fmap compose].
      rewrite !signed_add_opp by assumption. reflexivity.
    + unfold BiasAddition.Eval4 in Hout. rewrite Hb in Hout. discriminate Hout.
  - destruct (VectorMap_at (BiasAddition.bias_vector s) row) as [b0|] eqn:Hb0;
      [|unfold BiasAddition.Eval4, _mm_lddqu_si128 in Hout;
        rewrite Hb0 in Hout; discriminate Hout].
    destruct (VectorMap_at (BiasAddition.bias_vector s) (row + 1))
      as [b1|] eqn:Hb1;
      [|unfold BiasAddition.Eval4, _mm_lddqu_si128 in Hout;
        rewrite Hb0, Hb1 in Hout; discriminate Hout].
    destruct (VectorMap_at (BiasAddition.bias_vector s) (row + 2))
      as [b2|] eqn:Hb2;
      [|unfold BiasAddition.Eval4, _mm_lddqu_si128 in Hout;
        rewrite Hb0, Hb1, Hb2 in Hout; discriminate Hout].
    destruct (VectorMap_at (BiasAddition.bias_vector s) (row + 3))
      as [b3|] eqn:Hb3;
      [|unfold BiasAddition.Eval4, _mm_lddqu_si128 in Hout;
        rewrite Hb0, Hb1, Hb2, Hb3 in Hout; discriminate Hout].
    pose proof (BiasAddition_Col_lanes s v row col b0 b1 b2 b3 Hb0 Hb1 Hb2 Hb3)
      as Hl.
    rewrite Hout in Hl. cbn [fmap option_fmap option_map] in Hl.
    apply (inj Some) in Hl.
    rewrite (BiasAddition_Col_lanes s' out row col (- b0) (- b1) (- b2) (- b3)
               H0 H1 H2 H3), Hl.
    f_equal. lanes4 v. cbn [zip_with].
    rewrite !signed_add_opp by assumption. reflexivity.
Qed.

Lemma X10_bias_addition_undone_witness :
  let s : BiasAddition.OutputStage Col :=
    {| BiasAddition.bias_vector :=
         {| elements := [5; 2147483647; -7; 20] |} |} in
  let s' : BiasAddition.OutputStage Col :=
    {| BiasAddition.bias_vector :=
         {| elements := [-5; -2147483647; 7; -20] |} |} in
  let v := Lanes.combine 32 [1; 2; 3; 4] in
  epi32 <$> Eval s' (Lanes.combine 32 [6; -2147483647; -4; 24]) 0 0
  = Some (epi32 v).
Proof.
  intros s s' v.
  apply (X10_bias_addition_undone s s' v 0 0); vm_compute; reflexivity.
Defined.

(** ** The two per-channel specialisations *)



(** ** The store adapter *)

Lemma written_lookup_inside (p n : Z) (bs : list Z) (mem : gmap Z Z)
    (k : nat) :
  Z.of_nat (length bs) = n → (k < length bs)%nat →
  (list_to_map (zip (seqZ p n) bs) ∪ mem) !! (p + Z.of_nat k) = bs !! k.
Proof.
  intros Hn Hk.
  destruct (lookup_lt_is_Some_2 bs k Hk) as [b Hb]. rewrite Hb.
  apply lookup_union_Some_l, elem_of_list_to_map_1.
  - rewrite fst_zip by (rewrite length_seqZ; lia). apply NoDup_seqZ.
  - apply list_elem_of_lookup. exists k.
    apply lookup_zip_with_Some. exists (p + Z.of_nat k), b.
    split; [reflexivity|]. split; [|exact Hb].
    apply lookup_seqZ_lt. lia.
Qed.

Lemma written_lookup_outside (p n : Z) (bs : list Z) (mem : gmap Z Z)
    (a : Z) :
  Z.of_nat (length bs) = n → ¬ (p <= a < p + n) →
  (list_to_map (zip (seqZ p n) bs) ∪ mem) !! a = mem !! a.
Proof.
  intros Hn Ha.
  apply lookup_union_r, not_elem_of_list_to_map_1.
  rewrite fst_zip by (rewrite length_seqZ; lia).
  rewrite elem_of_seqZ. lia.
Qed.

Lemma combine_split (w : Z) (n : nat) (v : Z) :
  0 <= w →
  Lanes.combine w (Lanes.split w n v) = v mod 2 ^ (w * Z.of_nat n).
Proof.
  intros Hw. pose proof (pow2_pos w Hw) as Hp.
  revert v. induction n as [|n IH]; intros v.
  - cbn [Lanes.split Lanes.combine]. rewrite Z.mul_0_r. cbn.
    by rewrite Z.mod_1_r.
  - cbn [Lanes.split Lanes.combine]. rewrite IH, Z.mod_mod by lia.
    assert (2 ^ (w * Z.of_nat (S n)) = 2 ^ w * 2 ^ (w * Z.of_nat n)) as ->.
    { rewrite <- Z.pow_add_r by lia. f_equal; lia. }
    pose proof (pow2_pos (w * Z.of_nat n) ltac:(lia)).
    rewrite Z.rem_mul_r by lia. reflexivity.
Qed.

Lemma div_bytes_4 (x : Z) : x / 2 ^ 8 / 2 ^ 8 / 2 ^ 8 / 2 ^ 8 = x / 2 ^ 32.
Proof.
  rewrite !Z.div_div by lia. reflexivity.
Qed.

(** The four bytes from [4 * i] on make the 32-bit lane [i]. *)
Lemma load_int32_storeu (p v : Z) (mem : gmap Z Z) (i : nat) :
  (i < 4)%nat →
  Store.load_int32 (Store._mm_storeu_si128 p v mem) (p + 4 * Z.of_nat i)
  = epi32 v !! i.
Proof.
  intros Hi. unfold Store.load_int32, Store._mm_storeu_si128.
  replace (p + 4 * Z.of_nat i) with (p + Z.of_nat (4 * i)) by lia.
  replace (p + Z.of_nat (4 * i) + 1) with (p + Z.of_nat (4 * i + 1)) by lia.
  replace (p + Z.of_nat (4 * i) + 2) with (p + Z.of_nat (4 * i + 2)) by lia.
  replace (p + Z.of_nat (4 * i) + 3) with (p + Z.of_nat (4 * i + 3)) by lia.
  rewrite !written_lookup_inside by (rewrite ?length_epu8; lia).
  unfold epu8, epi32.
  destruct i as [|[|[|[|i]]]]; [| | | |lia];
    cbn [Nat.mul Nat.add Lanes.split lookup list_lookup fmap list_fmap
         mbind option_bind];
    f_equal; f_equal;
    (etrans; [apply (combine_split 8 4); lia|]);
    rewrite ?div_bytes_4; reflexivity.
Qed.

(** X12. After the store of a 4-wide int32 fragment, the four int32 read
    back at data(row, col), 4 bytes apart, are the four elements of the
    fragment in order. *)
Theorem X12_store_int32x4_then_load (value : Z) (dst : Store.DstType)
    (row col : Z) (mem : gmap Z Z) :
  (fun i => Store.load_int32
              (Store.StoreFinalOutput_Int32x4x1 value dst row col mem)
              (Store.data dst row col + 4 * i)) <$> [0; 1; 2; 3]
  = Some <$> epi32 value.
Proof.
  unfold Store.StoreFinalOutput_Int32x4x1. cbn [fmap list_fmap].
  rewrite (load_int32_storeu _ value mem 0), (load_int32_storeu _ value mem 1),
    (load_int32_storeu _ value mem 2), (load_int32_storeu _ value mem 3)
    by lia.
  lanes4 value. reflexivity.
Qed.

(** X13. The stores of a 4-wide int32 fragment and of a 16-wide uint8
    fragment change no byte outside the sixteen from data(row, col) on. *)
Theorem X13_store_16_bytes_frame (value : Z) (dst : Store.DstType)
    (row col : Z) (mem : gmap Z Z) (a : Z) :
  ¬ (Store.data dst row col <= a < Store.data dst row col + 16) →
  Store.StoreFinalOutput_Int32x4x1 value dst row col mem !! a = mem !! a
  ∧ Store.StoreFinalOutput_Uint8x16x1 value dst row col mem !! a = mem !! a.
Proof.
  intros Ha.
  unfold Store.StoreFinalOutput_Int32x4x1, Store.StoreFinalOutput_Uint8x16x1.
  split; apply storeu_lookup_outside; exact Ha.
Qed.

Lemma X13_store_16_bytes_frame_witness :
  let dst := {| Store.data := fun row col => 1000 + row + 64 * col |} in
  let mem : gmap Z Z := {[ 1015 := 7; 1016 := 9 ]} in
  Store.StoreFinalOutput_Int32x4x1 (Dup (-1)) dst 0 0 mem !! 1016 = Some 9
  ∧ Store.StoreFinalOutput_Uint8x16x1 (Dup (-1)) dst 0 0 mem !! 1016 = Some 9.
Proof.
  intros dst mem.
  apply (X13_store_16_bytes_frame (Dup (-1)) dst 0 0 mem 1016). simpl. lia.
Defined.

Lemma written_bytes_read (p n : Z) (bs : list Z) (mem : gmap Z Z) :
  Z.of_nat (length bs) = n →
  (fun k => (list_to_map (zip (seqZ p n) bs) ∪ mem) !! (p + k)) <$> seqZ 0 n
  = Some <$> bs.
Proof.
  intros Hn. apply list_eq. intros i. rewrite !list_lookup_fmap.
  destruct (decide (i < length bs)%nat) as [Hi|Hi].
  - rewrite lookup_seqZ_lt by lia. cbn [fmap option_fmap option_map].
    rewrite Z.add_0_l, written_lookup_inside by lia.
    destruct (lookup_lt_is_Some_2 bs i Hi) as [b ->]. reflexivity.
  - rewrite lookup_seqZ_ge, lookup_ge_None_2 by lia. reflexivity.
Qed.

(** X14. After the store of a 16-wide uint8 fragment, the sixteen bytes
    from data(row, col) on are the bytes of the fragment in order. *)
Theorem X14_store_uint8x16_then_read (value : Z) (dst : Store.DstType)
    (row col : Z) (mem : gmap Z Z) :
  (fun k => Store.StoreFinalOutput_Uint8x16x1 value dst row col mem
              !! (Store.data dst row col + k)) <$> seqZ 0 16
  = Some <$> epu8 value.
Proof.
  unfold Store.StoreFinalOutput_Uint8x16x1, Store._mm_storeu_si128.
  apply written_bytes_read. by rewrite length_epu8.
Qed.

(** X15. The 16-wide saturating cast followed by the store of its result
    leaves, in the sixteen bytes from data(row, col) on, the casts of the
    sixteen elements in order: 0 for x <= 0, x up to 255, 255 up to 32767,
    and 0 above. *)
Theorem X15_cast_16_wide_then_store (v0 v1 v2 v3 : Z) (dst : Store.DstType)
    (row col : Z) (mem : gmap Z Z) :
  let cast x :=
    if x <=? 0 then 0
    else if x <=? 255 then x
    else if x <=? 32767 then 255
    else 0 in
  let value := SaturatingCastToUint8.Eval16 [v0; v1; v2; v3] row col in
  (fun k => Store.StoreFinalOutput_Uint8x16x1 value dst row col mem
              !! (Store.data dst row col + k)) <$> seqZ 0 16
  = (fun x => Some (cast x))
    <$> (epi32 v0 ++ epi32 v1 ++ epi32 v2 ++ epi32 v3).
Proof.
  intros cast value.
  unfold Store.StoreFinalOutput_Uint8x16x1, Store._mm_storeu_si128.
  rewrite written_bytes_read by (by rewrite length_epu8).
  unfold value. rewrite SaturatingCast_Eval16_bytes, <- list_fmap_compose.
  apply list_fmap_ext. intros _ x _. cbn [compose]. f_equal.
  apply packed_byte_cases.
Qed.

(** X16. The store of a 4-wide uint8 fragment writes four bytes and no
    more: the four bytes from data(row, col) on are the low four bytes of the
    register stored, and every other byte of the memory is unchanged, the
    twelve after them included. When the register is the one the source
    builds from the fragment with _mm_cvtsi32_si128, the four bytes are
    those of the fragment. *)
Theorem X16_store_uint8x4_four_bytes (as_m128 : Z → Z) (value : Z)
    (dst : Store.DstType) (row col : Z) (mem : gmap Z Z) :
  let p := Store.data dst row col in
  (fun k => Store.StoreFinalOutput_Uint8x4x1 as_m128 value dst row col mem
              !! (p + k)) <$> seqZ 0 4
  = Some <$> Lanes.split 8 4 (as_m128 value)
  ∧ (∀ a, ¬ (p <= a < p + 4) →
          Store.StoreFinalOutput_Uint8x4x1 as_m128 value dst row col mem !! a
          = mem !! a)
  ∧ (fun k => Store.StoreFinalOutput_Uint8x4x1 Store._mm_cvtsi32_si128
                value dst row col mem !! (p + k)) <$> seqZ 0 4
    = Some <$> SaturatingCastToUint8.bytes4 value.
Proof.
  intros p. unfold Store.StoreFinalOutput_Uint8x4x1, Store._mm_store_ss.
  fold p. split; [|split].
  - apply written_bytes_read. by rewrite length_split.
  - intros a Ha. apply written_lookup_outside; [by rewrite length_split|lia].
  - rewrite written_bytes_read by (by rewrite length_split).
    unfold Store._mm_cvtsi32_si128, SaturatingCastToUint8.bytes4.
    by rewrite (split_mod 8 4) by lia.
Qed.

Lemma X16_store_uint8x4_four_bytes_witness :
  let dst := {| Store.data := fun row col => 1000 + row + 64 * col |} in
  let mem : gmap Z Z := {[ 1003 := 7; 1004 := 9 ]} in
  Store.StoreFinalOutput_Uint8x4x1 Store._mm_cvtsi32_si128 4294967295
    dst 0 0 mem !! 1004 = Some 9.
Proof.
  intros dst mem.
  apply (proj1 (proj2 (X16_store_uint8x4_four_bytes Store._mm_cvtsi32_si128
                         4294967295 dst 0 0 mem)) 1004).
  simpl. lia.
Defined.

(** ** The fixed-point rescale without overflow *)

(** X17. When 0 <= shift <= 31 and, for every element x of the fragment
    with mul = SaturatingRoundingDoublingHighMul(x, multiplier), both
    mul + roundingTerm and (mul + roundingTerm) / 2^shift + offsetAfterShift
    are 32-bit values, the fixed-point rescale gives exactly
    (mul + roundingTerm) / 2^shift + offsetAfterShift, the division rounded
    towards minus infinity. *)
Theorem X17_fixed_point_rescale_exact
    (SaturatingRoundingDoublingHighMul_int32 : Z → Z → Z)
    (s : QuantizeDownInt32ToUint8ScaleByFixedPoint.OutputStage)
    (v row col : Z) :
  let multiplier :=
    QuantizeDownInt32ToUint8ScaleByFixedPoint.result_fixedpoint_multiplier s in
  let shift := QuantizeDownInt32ToUint8ScaleByFixedPoint.result_shift s in
  let offset_after_shift :=
    QuantizeDownInt32ToUint8ScaleByFixedPoint.result_offset_after_shift s in
  let exact x :=
    (SaturatingRoundingDoublingHighMul_int32 x multiplier
     + roundingTerm_spec shift) / 2 ^ shift + offset_after_shift in
  0 <= shift <= 31 →
  Forall (fun x =>
            in_int32 (SaturatingRoundingDoublingHighMul_int32 x multiplier
                      + roundingTerm_spec shift)
            ∧ in_int32 (exact x))
         (epi32 v) →
  epi32 <$> QuantizeDownInt32ToUint8ScaleByFixedPoint.Eval4
              SaturatingRoundingDoublingHighMul_int32 s v row col
  = Some (exact <$> epi32 v).
Proof.
  intros multiplier shift offset_after_shift exact Hs Hv.
  unfold QuantizeDownInt32ToUint8ScaleByFixedPoint.Eval4.
  fold shift multiplier offset_after_shift.
  rewrite kRoundingTerm_spec by lia.
  cbn [mbind option_bind fmap option_fmap option_map]. f_equal.
  rewrite epi32_Add_Dup, epi32_ShiftRight, epi32_Add_Dup,
    epi32_SaturatingRoundingDoublingHighMul.
  rewrite <- !list_fmap_compose. apply Forall_fmap_ext_1.
  eapply Forall_impl; [exact Hv|]. intros x [H1 H2]. cbn [compose].
  unfold exact, in_int32 in *.
  rewrite signed_srai_lane, signed_add_r, signed_add_l by lia.
  rewrite (signed_small 32 (_ + roundingTerm_spec shift))
    by (change (32 - 1) with 31; lia).
  rewrite srai_lane_shiftr by (unfold in_int32; lia).
  rewrite Z.shiftr_div_pow2 by lia.
  apply signed_small; [lia|]. change (32 - 1) with 31. lia.
Qed.

Lemma X17_fixed_point_rescale_exact_witness :
  let s := {| QuantizeDownInt32ToUint8ScaleByFixedPoint.result_fixedpoint_multiplier
                := 1073741824;
              QuantizeDownInt32ToUint8ScaleByFixedPoint.result_shift := 3;
              QuantizeDownInt32ToUint8ScaleByFixedPoint.result_offset_after_shift
                := 128 |} in
  epi32 <$> QuantizeDownInt32ToUint8ScaleByFixedPoint.Eval4
              SaturatingRoundingDoublingHighMul_reference s
              (Lanes.combine 32 [1000; -1000; 0; 7]) 0 0
  = Some [191; 66; 128; 129].
Proof.
  intros s. etrans.
  - apply (X17_fixed_point_rescale_exact
             SaturatingRoundingDoublingHighMul_reference s
             (Lanes.combine 32 [1000; -1000; 0; 7]) 0 0).
    + simpl; lia.
    + replace (epi32 (Lanes.combine 32 [1000; -1000; 0; 7]))
        with [1000; -1000; 0; 7] by (vm_compute; reflexivity).
      repeat (constructor; [vm_compute; intuition discriminate|]).
      constructor.
  - vm_compute. reflexivity.
Defined.
